(** * VoiceTuber: a shallow embedding of the scene editor's core

    The development follows the three translation units of the repository:
    the chat node (text clean-up for text-to-speech, voice selection, render),
    the sprite node (sprite-sheet geometry, its detail panel, its record in
    the project file) and the application (project load and save, adding a
    node through the undo manager).  The models come first, one module for
    each part of the code; the facts about them follow, in modules of their
    own.

    Conventions.
    - [unsigned] counters are [N] with the wrap-around at [2^32] written out
      ([u32]); [size_t] values are [N] with the wrap-around at [2^64]
      ([u64]); [int] is [Z].
    - A function whose C++ counterpart can leave defined behaviour returns an
      [outcome]; a loop whose exit is not structural takes fuel.
    - Collaborators that are not part of the translation units (the ImGui
      widgets, OpenGL, the font, [std::hash]) are parameters. *)

From Stdlib Require Import NArith ZArith QArith String Ascii List Lia Bool.
From Stdlib.Strings Require Import Byte.
From stdpp Require Import base relations list strings gmap.

Local Open Scope N_scope.

Set Warnings "-register-all".

(** ** Results of partial code *)

(** The ways in which the code can leave defined behaviour. *)
Inductive fault : Type :=
| DivByZero      (* [/] or [%] with a zero divisor *)
| IntOverflow    (* a signed result that does not fit [int] *)
| OutOfRange     (* an index or an iterator range outside its container *)
| NullDeref      (* [*p] with [p == nullptr] *)
| DanglingRef.   (* a reference used after the end of the object's lifetime *)

Inductive outcome (A : Type) : Type :=
| Ret (a : A)             (* the code returns [a] *)
| Throws (what : string)  (* the code throws a [std::runtime_error] *)
| Undef (f : fault)       (* the code leaves defined behaviour *)
| OutOfFuel.              (* the model ran out of fuel before the loop ended *)
Arguments Ret {A} a.
Arguments Throws {A} what.
Arguments Undef {A} f.
Arguments OutOfFuel {A}.

(** Sequencing: a fault of the first step is the fault of the whole.  With
    the instances below, [x ← m; k] is the notation for it. *)
Definition outcome_bind {A B : Type} (k : A -> outcome B) (m : outcome A) : outcome B :=
  match m with
  | Ret a => k a
  | Throws e => Throws e
  | Undef f => Undef f
  | OutOfFuel => OutOfFuel
  end.

#[global] Instance outcome_mbind : MBind outcome := @outcome_bind.
#[global] Instance outcome_mret : MRet outcome := @Ret.

Definition u32 (n : N) : N := n mod 2 ^ 32.
Definition u64 (n : N) : N := n mod 2 ^ 64.

(** [a - b] on [size_t]. *)
Definition sub64 (a b : N) : N := u64 (a + 2 ^ 64 - u64 b).

(** * Chat: the text clean-up before text-to-speech *)

Module Dedup.

(** [words.size()] and [words[i]]. *)
Definition size (words : list string) : N := N.of_nat (length words).

Definition at_ (words : list string) (i : N) : string :=
  nth (N.to_nat i) words EmptyString.

(** The indices [0 .. w-1], in the order [for (auto k = 0U; k < w; ++k)]
    visits them. *)
Definition upto (w : N) : list N := map N.of_nat (seq 0 (N.to_nat w)).

(** [eq(words, i, j, w)]: the blocks of [w] words at [i] and at [j] both lie
    inside the list and agree word by word.  ([dedup] passes an [unsigned]
    [w], so the [unsigned] [k] of the loop reaches it.) *)
Definition eq (words : list string) (i j w : N) : bool :=
  if size words <? u64 (i + w) then false
  else if size words <? u64 (j + w) then false
  else forallb (fun k => String.eqb (at_ words (u64 (i + k))) (at_ words (u64 (j + k))))
               (upto w).

(** [words.erase(begin + first, begin + last)]; the range must be a range of
    the vector. *)
Definition erase (words : list string) (first last : N) : outcome (list string) :=
  if (first <=? last) && (last <=? size words)
  then Ret (take (N.to_nat first) words ++ drop (N.to_nat last) words)
  else Undef OutOfRange.

(** The innermost loop of [dedup], entered with [r]:
    [for (auto r = 1U; !didUpdate; ++r) if (!eq(words, i, i + r * w, w)) ...].
    [Ret None] is the [break]; [Ret (Some words')] is the erase, which sets
    [didUpdate]. *)
Fixpoint rloop (fuel : nat) (words : list string) (w i r : N)
  : outcome (option (list string)) :=
  match fuel with
  | O => OutOfFuel
  | S fuel' =>
      if eq words i (u32 (i + u32 (r * w))) w
      then rloop fuel' words w i (u32 (r + 1))
      else if 3 <=? r
           then words' ← erase words (i + w) (i + u32 (r * w)); Ret (Some words')
           else Ret None
  end.

(** [for (auto i = 0U; i < words.size() - w && !didUpdate; ++i)], entered
    with [i]. *)
Fixpoint iloop (fuel : nat) (words : list string) (w i : N)
  : outcome (option (list string)) :=
  match fuel with
  | O => OutOfFuel
  | S fuel' =>
      if i <? sub64 (size words) w
      then match rloop fuel' words w i 1 with
           | Ret None => iloop fuel' words w (u32 (i + 1))
           | res => res
           end
      else Ret None
  end.

(** [for (auto w = 1U; w < words.size() / 2 && !didUpdate; ++w)], entered
    with [w]. *)
Fixpoint wloop (fuel : nat) (words : list string) (w : N)
  : outcome (option (list string)) :=
  match fuel with
  | O => OutOfFuel
  | S fuel' =>
      if w <? size words / 2
      then match iloop fuel' words w 0 with
           | Ret None => wloop fuel' words (u32 (w + 1))
           | res => res
           end
      else Ret None
  end.

(** [for (bool didUpdate = true; didUpdate;)]: one pass of the three loops,
    again as long as a pass erased something. *)
Fixpoint outer (fuel : nat) (words : list string) : outcome (list string) :=
  match fuel with
  | O => OutOfFuel
  | S fuel' =>
      match wloop fuel' words 1 with
      | Ret None => Ret words
      | Ret (Some words') => outer fuel' words'
      | Throws e => Throws e
      | Undef f => Undef f
      | OutOfFuel => OutOfFuel
      end
  end.

Definition space : ascii := Ascii.ascii_of_nat 32.

(** [while (std::getline(st, word, ' ')) words.push_back(word);]
    [cur] is the word being read.  A space ends the word, also an empty one;
    at the end of the input a word is delivered only if a character was
    read for it. *)
Fixpoint split_from (cur : string) (s : string) : list string :=
  match s with
  | EmptyString => if String.eqb cur EmptyString then [] else [cur]
  | String c rest =>
      if Ascii.eqb c space
      then cur :: split_from EmptyString rest
      else split_from (cur +:+ String c EmptyString) rest
  end.

Definition split (var : string) : list string := split_from EmptyString var.

(** [for (const auto &w : words) { if (!ret.empty()) ret += " "; ret += w; }] *)
Definition join_step (ret w : string) : string :=
  (if String.eqb ret EmptyString then ret else ret +:+ String space EmptyString) +:+ w.

Definition join (words : list string) : string :=
  fold_left join_step words EmptyString.

Definition dedup (fuel : nat) (var : string) : outcome string :=
  words ← outer fuel (split var); Ret (join words).

(** Fuel that is enough for an input of [n] words (see the facts below). *)
Definition fuel_for (n : nat) : nat := (4 * n + 4)%nat.

End Dedup.

(** * Rendering: floats and the calls into OpenGL, the font and the base node *)

(** [float] and the operations the translation units use.  The development
    does not depend on how they round. *)
Class FloatOps : Type := {
  float : Type;
  f_of_int : Z -> float;               (* [static_cast<float>(n)], and literals *)
  fadd : float -> float -> float;
  fsub : float -> float -> float;
  fmul : float -> float -> float;
  fdiv : float -> float -> float;      (* a zero divisor gives an infinity or a NaN *)
  fgt : float -> float -> bool;
  f_to_int : float -> option Z         (* [static_cast<int>(x)], if [int] can hold it *)
}.

(** What a [render] does to the outside, in the order of the calls. *)
Inductive event `{FloatOps} : Type :=
| GlEnable (cap : string)
| GlDisable (cap : string)
| GlBindTexture (tex : N)
| GlBegin (mode : string)
| GlEnd
| GlColor3f (r g b : float)
| GlColor4f (r g b a : float)
| GlTexCoord2f (u v : float)
| GlVertex3f (x y z : float)
| FontRender (x y : float) (text : string)
| NodeRender (dt : float) (hovered selected : option N).
    (* [Node::render(dt, hovered, selected)]; a node pointer is its address *)

Definition is_NodeRender `{FloatOps} (e : event) : bool :=
  match e with NodeRender _ _ _ => true | _ => false end.

(** The calls of the base [Node::render] in a trace. *)
Definition base_calls `{FloatOps} (trace : list event) : list event :=
  List.filter is_NodeRender trace.

(** [int] division and remainder: a zero divisor, and [INT_MIN] by [-1], are
    undefined. *)
Definition int_min : Z := (- 2 ^ 31)%Z.

Definition idiv (a b : Z) : outcome Z :=
  if (b =? 0)%Z then Undef DivByZero
  else if (a =? int_min)%Z && (b =? -1)%Z then Undef IntOverflow
  else Ret (Z.quot a b).

Definition imod (a b : Z) : outcome Z :=
  if (b =? 0)%Z then Undef DivByZero
  else if (a =? int_min)%Z && (b =? -1)%Z then Undef IntOverflow
  else Ret (Z.rem a b).

(** [x / n] for a float [x] and an [int] [n] converted to [float]: a float
    division.  With a zero divisor it gives an infinity or a NaN, and the
    function goes on. *)
Definition fdiv_int `{FloatOps} (x : float) (n : Z) : outcome float :=
  Ret (fdiv x (f_of_int n)).

(** An [int] result: it must fit. *)
Definition int_range (z : Z) : outcome Z :=
  if (int_min <=? z)%Z && (z <? 2 ^ 31)%Z then Ret z else Undef IntOverflow.

Definition cast_int `{FloatOps} (x : float) : outcome Z :=
  match f_to_int x with
  | Some n => Ret n
  | None => Undef IntOverflow
  end.

(** * Chat *)

Module Chat.
Section WithFloat.
Context `{FloatOps}.

Record Msg : Type := {
  displayName : string;
  msg : string;
  color : float * float * float
}.

Record Chat : Type := {
  voicesMap : gmap string string;
  voices : list string;
  showChat : bool;
  msgs : list Msg;
  size_x : float;
  size_y : float;
  font_getSize : string -> float * float   (* [font->getSize(text)] *)
}.

Definition h (c : Chat) : float := size_y c.
Definition w (c : Chat) : float := size_x c.

(** [Chat::getVoice].  [hash] is [std::hash<std::string>], a [size_t]. *)
Definition getVoice (hash : string -> N) (c : Chat) (n : string) : outcome string :=
  match voicesMap c !! n with
  | Some v => Ret v
  | None =>
      let sz := N.of_nat (length (voices c)) in
      if sz =? 0 then Undef DivByZero
      else match voices c !! N.to_nat (N.lxor (u64 (hash n)) 1 mod sz) with
           | Some v => Ret v
           | None => Undef OutOfRange
           end
  end.

(** [iss >> word]: the pieces between white space, none of them empty. *)
Definition is_space (c : ascii) : bool :=
  let n := nat_of_ascii c in
  Nat.eqb n 32 || (Nat.leb 9 n && Nat.leb n 13).

Fixpoint tokens_from (cur : string) (s : string) : list string :=
  match s with
  | EmptyString => if String.eqb cur EmptyString then [] else [cur]
  | String c rest =>
      if is_space c
      then (if String.eqb cur EmptyString then tokens_from EmptyString rest
            else cur :: tokens_from EmptyString rest)
      else tokens_from (cur +:+ String c EmptyString) rest
  end.

Definition tokens (text : string) : list string := tokens_from EmptyString text.

(** The body of the [while (iss >> word)] loop of [wrapText]; the state is
    [(lines, line, initOffset)]. *)
Definition wrap_step (c : Chat) (st : list string * string * float) (word : string)
  : list string * string * float :=
  let '(lines, line, initOffset) := st in
  let tempLine := line +:+ " " +:+ word in
  let tempDim := font_getSize c tempLine in
  if fgt (fst tempDim) (fsub (w c) initOffset)
  then (lines ++ [line], word, f_of_int 0)
  else (lines, tempLine, initOffset).

(** [Chat::wrapText]. *)
Definition wrapText (c : Chat) (text : string) (initOffset : float) : list string :=
  let ws := tokens text in
  let '(lines, line, _) :=
    fold_left (wrap_step c) (tl ws) ([], hd EmptyString ws, initOffset) in
  if String.eqb line EmptyString then lines else lines ++ [line].

(** The loop over the wrapped lines of one message, last line first;
    [lines] is what is left of [wrappedLines.rbegin() .. rend()].  The result
    is the trace and [y]. *)
Fixpoint render_lines (c : Chat) (m : Msg) (dim : float * float)
    (lines : list string) (y : float) : list event * float :=
  match lines with
  | [] => ([], y)
  | ln :: rest =>
      if fgt y (h c) then ([], y)
      else
        let isLast := match rest with [] => true | _ => false end in
        let here :=
          FontRender (if isLast then fst dim else f_of_int 0) y ln ::
          (if isLast
           then [GlColor3f (color m).1.1 (color m).1.2 (color m).2;
                 FontRender (f_of_int 0) y (displayName m)]
           else []) in
        let '(trace, y') := render_lines c m dim rest (fadd y (snd dim)) in
        (here ++ trace, y')
  end.

(** The loop over the messages, newest first; [ms] is what is left of
    [msgs.rbegin() .. rend()]. *)
Fixpoint render_msgs (c : Chat) (ms : list Msg) (y : float) : list event :=
  match ms with
  | [] => []
  | m :: rest =>
      let displayNameDim := font_getSize c (displayName m) in
      let text := ": " +:+ msg m in
      let wrappedLines := wrapText c text (fst displayNameDim) in
      let '(trace, y') := render_lines c m displayNameDim (rev wrappedLines) y in
      GlColor3f (f_of_int 1) (f_of_int 1) (f_of_int 1) :: trace ++
      (if fgt y' (h c) then [] else render_msgs c rest y')
  end.

(** [Chat::render]. *)
Definition render (c : Chat) (dt : float) (hovered selected : option N) : list event :=
  if negb (showChat c) then [NodeRender dt hovered selected]
  else render_msgs c (rev (msgs c)) (f_of_int 0) ++ [NodeRender dt hovered selected].

End WithFloat.
End Chat.

(** * Sprite *)

Module Sprite.
Section WithFloat.
Context `{FloatOps}.

(** What a sprite reads of its texture. *)
Record Texture : Type := {
  tex_name : N;                     (* [texture()], the OpenGL name *)
  tex_w : Z;
  tex_h : Z;
  tex_ch : Z;
  imageData : option (list Z)       (* the bytes of the image, or [nullptr] *)
}.

Record Sprite : Type := {
  texture : Texture;
  cols : Z;
  rows : Z;
  numFrames : Z;
  frame : Z;
  zOrder : Z                        (* of the base [Node] *)
}.

(** [Sprite::w] and [Sprite::h]. *)
Definition w (s : Sprite) : outcome float :=
  fdiv_int (fmul (f_of_int 1) (f_of_int (tex_w (texture s)))) (cols s).

Definition h (s : Sprite) : outcome float :=
  fdiv_int (fmul (f_of_int 1) (f_of_int (tex_h (texture s)))) (rows s).

(** [Sprite::render].  The [int] remainder [frame % cols] and the [int]
    division [frame / cols] come first in the model: a fault of one of them
    is the fault of the call.  The divisions by [fCols], [fRows] and in
    [w()] and [h()] are float divisions. *)
Definition render (s : Sprite) (dt : float) (hovered selected : option N)
  : outcome (list event) :=
  let fCols := cols s in
  let fRows := rows s in
  fc ← imod (frame s) (cols s);
  i ← fdiv_int (f_of_int fc) fCols;
  q ← idiv (frame s) (cols s);
  j ← fdiv_int (fsub (fsub (f_of_int fRows) (f_of_int 1)) (f_of_int q)) fRows;
  let z := fdiv (f_of_int (zOrder s)) (f_of_int 1024) in
  let zero := f_of_int 0 in
  du ← fdiv_int (f_of_int 1) fCols;
  w1 ← w s;
  dv ← fdiv_int (f_of_int 1) fRows;
  h1 ← h s;
  Ret [ GlEnable "GL_TEXTURE_2D";
        GlBindTexture (tex_name (texture s));
        GlBegin "GL_QUADS";
        GlColor4f (f_of_int 1) (f_of_int 1) (f_of_int 1) (f_of_int 1);
        GlTexCoord2f (fadd zero i) (fadd zero j);
        GlVertex3f zero zero z;
        GlTexCoord2f (fadd du i) (fadd zero j);
        GlVertex3f w1 zero z;
        GlTexCoord2f (fadd du i) (fadd dv j);
        GlVertex3f w1 h1 z;
        GlTexCoord2f (fadd zero i) (fadd dv j);
        GlVertex3f zero h1 z;
        GlEnd;
        GlBindTexture 0;
        GlDisable "GL_TEXTURE_2D";
        NodeRender dt hovered selected ].



(** [Sprite::isTransparent(v)], [v = (vx, vy)]. *)
Definition isTransparent (s : Sprite) (vx vy : float) : outcome bool :=
  let t := texture s in
  if (tex_ch t =? 3)%Z then Ret false
  else
    fn ← imod (frame s) (numFrames s);
    fc ← imod fn (cols s);
    w1 ← w s;
    x ← cast_int (fadd vx (fmul (f_of_int fc) w1));
    q ← idiv fn (cols s);
    h1 ← h s;
    r1 ← int_range (rows s - q);
    r2 ← int_range (r1 - 1);
    y ← cast_int (fadd vy (fmul (f_of_int r2) h1));
    if (x <? 0)%Z || (tex_w t <=? x)%Z || (y <? 0)%Z || (tex_h t <=? y)%Z
    then Ret true
    else
      match imageData t with
      | Some data =>
          yw ← int_range (y * tex_w t);
          p ← int_range (x + yw);
          pc ← int_range (p * tex_ch t);
          idx ← int_range (pc + 3);
          match (if (0 <=? idx)%Z then data !! Z.to_nat idx else None) with
          | Some b => Ret (b <? 127)%Z
          | None => Undef OutOfRange
          end
      | None => Ret false
      end.

(** The invariant the detail panel keeps. *)
Definition inv (s : Sprite) : Prop :=
  (1 <= cols s)%Z /\ (1 <= rows s)%Z /\ (1 <= numFrames s)%Z.

End WithFloat.
End Sprite.

(** * The undo manager *)

Module UndoManager.
Section Manager.
Context {St : Type}.   (* what the recorded closures read and write *)

(** A recorded action: the two closures given to [record]. *)
Record Action : Type := {
  doFn : St -> outcome St;
  undoFn : St -> outcome St
}.

(** Modelled from the spec: the class [Undo] (undo.hpp, undo.cpp) is not
    under src/; only its calls are.  Two stacks of actions, the top first. *)
Record Undo : Type := {
  done : list Action;
  undone : list Action
}.

(** Modelled from the spec: [record(doFn, undoFn)] executes [doFn]
    immediately, pushes the pair onto the done-stack and clears the
    undone-stack. *)
Definition record (a : Action) (u : Undo) (s : St) : outcome (Undo * St) :=
  s' ← doFn a s;
  Ret ({| done := a :: done u; undone := [] |}, s').

(** Modelled from the spec: [undo()] is a no-op if the done-stack is empty;
    else it pops the top, invokes its undo-closure and pushes it onto the
    undone-stack. *)
Definition undo (u : Undo) (s : St) : outcome (Undo * St) :=
  match done u with
  | [] => Ret (u, s)
  | a :: rest =>
      s' ← undoFn a s;
      Ret ({| done := rest; undone := a :: undone u |}, s')
  end.

(** Modelled from the spec: [redo()] is symmetric and invokes the
    do-closure. *)
Definition redo (u : Undo) (s : St) : outcome (Undo * St) :=
  match undone u with
  | [] => Ret (u, s)
  | a :: rest =>
      s' ← doFn a s;
      Ret ({| done := a :: done u; undone := rest |}, s')
  end.

(** Modelled from the spec: [hasUndo()] and [hasRedo()] are the stack-empty
    checks. *)
Definition hasUndo (u : Undo) : bool := match done u with [] => false | _ => true end.
Definition hasRedo (u : Undo) : bool := match undone u with [] => false | _ => true end.

(** [record] called once for each action of a list, in order. *)
Fixpoint record_all (acts : list Action) (u : Undo) (s : St) : outcome (Undo * St) :=
  match acts with
  | [] => Ret (u, s)
  | a :: rest => p ← record a u s; record_all rest p.1 p.2
  end.

(** [undo] called [n] times. *)
Fixpoint undo_n (n : nat) (u : Undo) (s : St) : outcome (Undo * St) :=
  match n with
  | O => Ret (u, s)
  | S n' => p ← undo u s; undo_n n' p.1 p.2
  end.

(** The spec's invariant of an action, along a run of [record] calls from
    [s]: each do-closure returns, and the undo-closure takes the state it
    leaves back to the state it was recorded in. *)
Fixpoint inverses_from (s : St) (acts : list Action) : Prop :=
  match acts with
  | [] => True
  | a :: rest =>
      exists s', doFn a s = Ret s' /\ undoFn a s' = Ret s /\ inverses_from s' rest
  end.

End Manager.
End UndoManager.

(** * The node factory *)

Module Factory.

(** The classes [App::App] registers, in the order of the [reg] calls. *)
Inductive Kind : Type :=
| Bouncer | Bouncer2 | Root | Mouth | AnimSprite | Eye | Chat.

#[global] Instance Kind_eq_dec : EqDecision Kind.
Proof. solve_decision. Defined.

(** Modelled from the spec: the [className] constants are declared in
    headers that are not under src/; [reg<T>] "registers a constructor for
    type T's name", so the name of a class is taken to be its type name. *)
Definition className (k : Kind) : string :=
  match k with
  | Bouncer => "Bouncer"
  | Bouncer2 => "Bouncer2"
  | Root => "Root"
  | Mouth => "Mouth"
  | AnimSprite => "AnimSprite"
  | Eye => "Eye"
  | Chat => "Chat"
  end.

Definition registered : list Kind :=
  [Bouncer; Bouncer2; Root; Mouth; AnimSprite; Eye; Chat].

(** The classes derived from [Sprite]. *)
Definition isSprite (k : Kind) : bool :=
  match k with
  | Mouth | AnimSprite | Eye => true
  | _ => false
  end.

(** A persistent field as the project file holds it: 32 bits of a scalar
    ([int], [float], an enum) or a string. *)
Inductive Val : Type :=
| VWord (bits : N)
| VStr (s : string).

Definition Props : Type := list Val.

(** The persistent part of a node: its class, its name and the fields of
    each layer of its class, the most derived first. *)
Record Obj : Type := {
  kind : Kind;
  name : string;
  own : Props;        (* the fields of the class itself *)
  sprite : Props;     (* the fields of [Sprite], for the classes derived from it *)
  base : Props        (* the fields of [Node] *)
}.

(** What the constructors take from outside the translation units. *)
Class Collaborators : Type := {
  rootName : string;       (* the name [Root::Root] gives its node *)
  bouncerName : string;    (* the name [Bouncer::Bouncer] gives its node *)
  defaults : Kind -> Props * Props * Props;
    (* the fields of a freshly constructed object: own, sprite, base *)
  failure : Kind -> string -> option string
    (* [what()] of the [std::runtime_error] the constructor throws for this
       name (a file that cannot be loaded, ...), if it throws *)
}.

Section WithCollaborators.
Context `{Collaborators}.

(** [path.filename().string()]: what follows the last [/]. *)
Fixpoint filename_from (cur : string) (path : string) : string :=
  match path with
  | EmptyString => cur
  | String c rest =>
      if Ascii.eqb c "/"%char then filename_from EmptyString rest
      else filename_from (cur +:+ String c EmptyString) rest
  end.

Definition filename (path : string) : string := filename_from EmptyString path.

(** The name of the node a registered lambda constructs for the name it is
    given: [Bouncer] and [Root] are constructed without it
    ([[this](std::string) { return std::make_unique<Root>(lib, undo); }]);
    the sprite classes name the node after the file
    ([Node(path.filename().string())] in [Sprite::Sprite]); [Bouncer2] and
    [Chat] pass it on. *)
Definition ctorName (k : Kind) (nm : string) : string :=
  match k with
  | Bouncer => bouncerName
  | Root => rootName
  | Bouncer2 | Chat => nm
  | Mouth | AnimSprite | Eye => filename nm
  end.

Definition newObj (k : Kind) (nm : string) : Obj :=
  {| kind := k; name := ctorName k nm;
     own := (defaults k).1.1; sprite := (defaults k).1.2; base := (defaults k).2 |}.

(** [std::make_unique<Root>(lib, undo)], taken not to throw. *)
Definition newRoot : Obj := newObj Root EmptyString.

(** The registered lambda of a class, applied to a name. *)
Definition construct (k : Kind) (nm : string) : outcome Obj :=
  match k with
  | Root => Ret newRoot
  | _ => match failure k nm with
         | Some what => Throws what
         | None => Ret (newObj k nm)
         end
  end.

Definition lookup (class_ : string) : option Kind :=
  List.find (fun k => String.eqb (className k) class_) registered.

(** Modelled from the spec: [SaveFactory::ctor(typeName, instanceName)]
    (save-factory.hpp is not under src/) "looks up and invokes; fails with a
    reportable construction error (e.g., unknown type name ...)".  The text
    of that error is not specified. *)
Definition ctor (class_ nm : string) : outcome Obj :=
  match lookup class_ with
  | Some k => construct k nm
  | None => Throws ("unknown class " +:+ class_)
  end.

End WithCollaborators.
End Factory.

(** * The project file *)

Module Prj.
Import Factory.

(** [static const auto ver = uint32_t{2};] *)
Definition ver : N := 2.

(** The stream: [OStrm] appends bytes, [IStrm] reads them from the front. *)
Definition Strm : Type := list byte.

(** The codec of scalars and strings ([::ser], [::deser]), a library outside
    the repository.  The development uses only that reading gives back what
    was written, for a 32-bit value and for a string whose length is a
    32-bit value. *)
Class Codec : Type := {
  ser_u32 : N -> Strm;
  deser_u32 : Strm -> option (N * Strm);
  ser_str : string -> Strm;
  deser_str : Strm -> option (string * Strm);
  deser_ser_u32 : forall n rest,
    n < 2 ^ 32 -> deser_u32 (ser_u32 n ++ rest) = Some (n, rest);
  deser_ser_str : forall s rest,
    N.of_nat (String.length s) < 2 ^ 32 -> deser_str (ser_str s ++ rest) = Some (s, rest)
}.

(** A tree of nodes, as far as it is persistent; the children in the order
    of [Node::nodes]. *)
Inductive Node : Type :=
| mkNode (obj : Obj) (nodes : list Node).

Definition obj_of (n : Node) : Obj := match n with mkNode o _ => o end.
Definition nodes_of (n : Node) : list Node := match n with mkNode _ ns => ns end.

Section WithCodec.
Context `{Collaborators} `{Codec}.

(** A read that runs past the end of the stream: the source does not say
    what happens then. *)
Definition reading {A : Type} (r : option (A * Strm)) : outcome (A * Strm) :=
  match r with
  | Some p => Ret p
  | None => Undef OutOfRange
  end.

Definition ser_val (v : Val) : Strm :=
  match v with
  | VWord bits => ser_u32 bits
  | VStr s => ser_str s
  end.

(** Modelled from the spec: [::ser(strm, *this)] writes the persistent
    fields of the class, one after the other. *)
Definition ser_props (ps : Props) : Strm := concat (map ser_val ps).

Definition deser_val (old : Val) (strm : Strm) : outcome (Val * Strm) :=
  match old with
  | VWord _ => p ← reading (deser_u32 strm); Ret (VWord p.1, p.2)
  | VStr _ => p ← reading (deser_str strm); Ret (VStr p.1, p.2)
  end.

(** Modelled from the spec: [::deser(strm, *this)] reads into the fields of
    the object, each as its type says. *)
Fixpoint deser_props (old : Props) (strm : Strm) : outcome (Props * Strm) :=
  match old with
  | [] => Ret ([], strm)
  | v :: rest =>
      p ← deser_val v strm;
      q ← deser_props rest p.2;
      Ret (p.1 :: q.1, q.2)
  end.

(** Modelled from the spec: [Node::save] and [Node::load] (node.cpp is not
    under src/) write and read the fields of the base, "transform/z-order
    fields". *)
Definition Node_save (o : Obj) : Strm := ser_props (base o).

Definition Node_load (o : Obj) (strm : Strm) : outcome (Obj * Strm) :=
  p ← deser_props (base o) strm;
  Ret ({| kind := kind o; name := name o; own := own o; sprite := sprite o;
          base := p.1 |}, p.2).

(** [Sprite::save] and [Sprite::load]. *)
Definition Sprite_save (o : Obj) : Strm := ser_props (sprite o) ++ Node_save o.

Definition Sprite_load (o : Obj) (strm : Strm) : outcome (Obj * Strm) :=
  p ← deser_props (sprite o) strm;
  Node_load {| kind := kind o; name := name o; own := own o; sprite := p.1;
               base := base o |} p.2.

(** [Chat::save] and [Chat::load]; what [load] does to the font and to the
    text-to-speech client is not persistent. *)
Definition Chat_save (o : Obj) : Strm :=
  ser_str (className Chat) ++ ser_str (name o) ++ ser_props (own o) ++ Node_save o.

Definition Chat_load (o : Obj) (strm : Strm) : outcome (Obj * Strm) :=
  p ← deser_props (own o) strm;
  Node_load {| kind := kind o; name := name o; own := p.1; sprite := sprite o;
               base := base o |} p.2.

(** Modelled from the spec: the virtual [save] and [load] of the classes
    whose files are not under src/.  Like [Chat], a class writes its type
    name, its instance name and its own fields, and then calls the [save] of
    its base class, [Sprite] or [Node]; [Chat] itself is [Chat_save] and
    [Chat_load]. *)
Definition save (o : Obj) : Strm :=
  match kind o with
  | Chat => Chat_save o
  | k =>
      ser_str (className k) ++ ser_str (name o) ++ ser_props (own o) ++
      (if isSprite k then Sprite_save o else Node_save o)
  end.

Definition load (o : Obj) (strm : Strm) : outcome (Obj * Strm) :=
  match kind o with
  | Chat => Chat_load o strm
  | k =>
      p ← deser_props (own o) strm;
      let o' := {| kind := kind o; name := name o; own := p.1; sprite := sprite o;
                   base := base o |} in
      if isSprite k then Sprite_load o' p.2 else Node_load o' p.2
  end.

(** Modelled from the spec: [Node::saveAll] writes the record of the node
    (type name, instance name and payload, through the virtual [save]), the
    number of its children and the record of each child, in order. *)
Fixpoint saveAll (n : Node) : Strm :=
  match n with
  | mkNode o ns =>
      save o ++ ser_u32 (N.of_nat (length ns)) ++ concat (map saveAll ns)
  end.

(** Modelled from the spec: the loop of [Node::loadAll] over the children.
    For each, the type name and the instance name are read, the factory
    constructs the child, the child loads its subtree ([rec]) and is
    appended. *)
Fixpoint load_children (rec : Obj -> Strm -> outcome (Node * Strm))
    (count : nat) (strm : Strm) : outcome (list Node * Strm) :=
  match count with
  | O => Ret ([], strm)
  | S count' =>
      c ← reading (deser_str strm);
      n ← reading (deser_str c.2);
      o ← ctor c.1 n.1;
      child ← rec o n.2;
      more ← load_children rec count' child.2;
      Ret (child.1 :: more.1, more.2)
  end.

(** Modelled from the spec: [Node::loadAll] reads the payload of the node
    through the virtual [load], then the number of children and the
    children.  The fuel bounds the depth of the tree that is read. *)
Fixpoint loadAll (fuel : nat) (o : Obj) (strm : Strm) : outcome (Node * Strm) :=
  match fuel with
  | O => OutOfFuel
  | S fuel' =>
      p ← load o strm;
      c ← reading (deser_u32 p.2);
      ch ← load_children (loadAll fuel') (N.to_nat c.1) c.2;
      Ret (mkNode p.1 ch.1, ch.2)
  end.

(** [App::savePrj]: what is written to the file, if there is a root. *)
Definition savePrj (root : option Node) : option Strm :=
  match root with
  | None => None
  | Some r => Some (ser_u32 ver ++ saveAll r)
  end.

(** [App::loadPrj]: the new root.  [file] is the content of the project
    file, [None] if it cannot be opened. *)
Definition loadPrj (fuel : nat) (file : option Strm) : outcome Node :=
  match file with
  | None => Ret (mkNode newRoot [])
  | Some buf =>
      v ← reading (deser_u32 buf);
      if negb (v.1 =? ver) then Ret (mkNode newRoot [])
      else
        c ← reading (deser_str v.2);
        n ← reading (deser_str c.2);
        o ← ctor c.1 n.1;
        r ← loadAll fuel o n.2;
        Ret r.1
  end.

(** The depth of a tree, and fuel that is enough to load it. *)
Fixpoint depth (n : Node) : nat :=
  match n with
  | mkNode _ ns => S (fold_right (fun c d => Nat.max (depth c) d) O ns)
  end.

End WithCodec.
End Prj.

(** * The application: adding a node *)

Module App.
Import Factory UndoManager.

(** The scene: a node is at an address, a node pointer is an address or
    [nullptr]. *)
Inductive Tree : Type :=
| TNode (addr : N) (obj : Obj) (nodes : list Tree).

Definition addr_of (t : Tree) : N := match t with TNode a _ _ => a end.
Definition children (t : Tree) : list Tree := match t with TNode _ _ ns => ns end.

(** Modelled from the spec: [Node::addChild] (node.cpp is not under src/)
    appends the child to the children of the node, here the node at
    [parent]. *)
Fixpoint addChild (parent : N) (child : Tree) (t : Tree) {struct t} : Tree :=
  match t with
  | TNode a o ns =>
      TNode a o (map (addChild parent child) ns ++ (if a =? parent then [child] else []))
  end.

(** Modelled from the spec: [Node::del(Node &)] removes the node, here the
    node at [a], from its parent. *)
Fixpoint del (a : N) (t : Tree) : Tree :=
  match t with
  | TNode b o ns =>
      TNode b o (List.filter (fun c => negb (addr_of c =? a)) (map (del a) ns))
  end.

(** What the closures of the undo manager read and write. *)
Record World : Type := {
  root : option Tree;
  selected : option N
}.

Inductive Dialog : Type :=
| MessageDialog (title text : string)
| OtherDialog.

(** A closure of [postponedActions]: [ShowError e] is
    [[&]() { dialog = std::make_unique<MessageDialog>("Error", e.what()); }],
    which holds a reference to the exception object at [e]. *)
Inductive Postponed : Type :=
| ShowError (e : N).

Record App : Type := {
  world : World;
  undo : Undo (St := World);
  dialog : option Dialog;
  postponedActions : list Postponed;
  exceptions : gmap N string;   (* the exception objects alive, with [what()] *)
  next_addr : N                 (* where the next node is allocated *)
}.

(** The do-closure of [addNode]:
    [selected = node.get(); parent->addChild(std::move(node));] *)
Definition addNode_do (node : Tree) (parent : option N) (w : World) : outcome World :=
  match parent with
  | None => Undef NullDeref
  | Some p =>
      Ret {| root := option_map (addChild p node) (root w);
             selected := Some (addr_of node) |}
  end.

(** The undo-closure of [addNode]:
    [Node::del( *selected ); selected = oldSelected;] *)
Definition addNode_undo (oldSelected : option N) (w : World) : outcome World :=
  match selected w with
  | None => Undef NullDeref
  | Some a =>
      Ret {| root := option_map (del a) (root w); selected := oldSelected |}
  end.

(** The handler [catch (const std::runtime_error &e)]: the exception object
    is alive while the handler runs, a closure that refers to it is put on
    [postponedActions], and the object is destroyed when the handler is left. *)
Definition handler (what : string) (app : App) : App :=
  let e := stdpp.base.fresh (dom (exceptions app)) in
  let thrown := <[e := what]> (exceptions app) in
  {| world := world app; undo := undo app; dialog := dialog app;
     postponedActions := postponedActions app ++ [ShowError e];
     exceptions := delete e thrown;
     next_addr := next_addr app |}.

Section WithCollaborators.
Context `{Collaborators}.

(** The [try] block of [App::addNode]. *)
Definition addNode_try (class_ nm : string) (app : App) : outcome App :=
  obj ← ctor class_ nm;
  let node := TNode (next_addr app) obj [] in
  let oldSelected := selected (world app) in
  let parent :=
    match oldSelected with
    | Some a => Some a
    | None => option_map addr_of (root (world app))
    end in
  p ← record {| doFn := addNode_do node parent; undoFn := addNode_undo oldSelected |}
             (undo app) (world app);
  Ret {| world := p.2; undo := p.1; dialog := dialog app;
         postponedActions := postponedActions app;
         exceptions := exceptions app;
         next_addr := next_addr app + 1 |}.

(** [App::addNode]. *)
Definition addNode (class_ nm : string) (app : App) : outcome App :=
  match addNode_try class_ nm app with
  | Throws what => Ret (handler what app)
  | res => res
  end.

End WithCollaborators.

(** One closure of [postponedActions], called. *)
Definition call (a : Postponed) (app : App) : outcome App :=
  match a with
  | ShowError e =>
      match exceptions app !! e with
      | Some what =>
          Ret {| world := world app; undo := undo app;
                 dialog := Some (MessageDialog "Error" what);
                 postponedActions := postponedActions app;
                 exceptions := exceptions app; next_addr := next_addr app |}
      | None => Undef DanglingRef
      end
  end.

(** The end of [App::renderUi]:
    [for (auto &action : postponedActions) action(); postponedActions.clear();] *)
Fixpoint call_all (actions : list Postponed) (app : App) : outcome App :=
  match actions with
  | [] => Ret app
  | a :: rest => app' ← call a app; call_all rest app'
  end.

Definition flush (app : App) : outcome App :=
  app' ← call_all (postponedActions app) app;
  Ret {| world := world app'; undo := undo app'; dialog := dialog app';
         postponedActions := []; exceptions := exceptions app';
         next_addr := next_addr app' |}.

(** Modelled from the spec: [Node::del(&selected)], which [App::processIo]
    calls for the keys X and Delete, "removes a node from its parent and
    nulls the caller's reference". *)
Definition del_selected (w : World) : World :=
  match selected w with
  | None => w
  | Some a => {| root := option_map (del a) (root w); selected := None |}
  end.

End App.

(** * Chat: what is said for a message *)

Module ChatText.

Definition chars (s : string) : list ascii := list_ascii_of_string s.
Definition text_of (l : list ascii) : string := string_of_list_ascii l.

(** The lambda of [std::transform] in [escName]. *)
Definition unscore (ch : ascii) : ascii :=
  if Ascii.eqb ch "_"%char then " "%char else ch.

(** [isdigit(ch)] of <cctype> in the C locale.  Its argument must be
    representable as [unsigned char] or be [EOF], which is [-1]; [char] is
    taken to be signed, as on x86, so that the bytes from 128 to 254 are the
    negative [char]s from [-128] to [-2], for which [isdigit] is undefined,
    and the byte 255 is [-1], for which it is defined and [false]. *)
Definition seven_bit (ch : ascii) : bool := Nat.ltb (nat_of_ascii ch) 128.

Definition in_domain (ch : ascii) : bool :=
  seven_bit ch || Nat.eqb (nat_of_ascii ch) 255.

Definition isdigit (ch : ascii) : bool :=
  let n := nat_of_ascii ch in Nat.leb 48 n && Nat.leb n 57.

(** [while (!value.empty() && isdigit(value.back())) value.resize(value.size() - 1);]
    on the characters of [value] from the back. *)
Fixpoint drop_digits (back_first : list ascii) : outcome (list ascii) :=
  match back_first with
  | [] => Ret []
  | ch :: rest =>
      if negb (in_domain ch) then Undef OutOfRange
      else if isdigit ch then drop_digits rest
      else Ret back_first
  end.

(** [escName]. *)
Definition escName (value : string) : outcome string :=
  left_ ← drop_digits (rev (map unscore (chars value)));
  Ret (text_of (rev left_)).

(** [text.find(ch) != std::string::npos] and [text.find(ch) == 0] for a
    needle of one character. *)
Definition contains (ch : ascii) (text : string) : bool :=
  existsb (Ascii.eqb ch) (chars text).

Definition starts_with (ch : ascii) (text : string) : bool :=
  match text with
  | String c _ => Ascii.eqb ch c
  | EmptyString => false
  end.

(** [getDialogLine]. *)
Definition getDialogLine (text : string) (isMe : bool) : string :=
  if isMe then ""
  else if contains "?" text || starts_with "!" text then "asked:"
  else if contains "!" text then "yelled:"
  else "said:".

End ChatText.

Module ChatTts.
Import ChatText.
Section WithFloat.
Context `{FloatOps}.

(** The chat node with what [onMsg] and the voice mapping of the detail
    panel read and write besides the fields of [Chat.Chat]. *)
Record Speaker : Type := {
  chat : Chat.Chat;
  azureTts : bool;                    (* [azureTts] is not [nullptr] *)
  lastName : string;
  said : list (string * string);      (* the calls [azureTts->say(voice, text)], in order *)
  timer : option N                    (* the timer runs, for so many milliseconds *)
}.

Definition with_chat (c : Chat.Chat) (s : Speaker) : Speaker :=
  {| chat := c; azureTts := azureTts s; lastName := lastName s; said := said s;
     timer := timer s |}.

Definition show (c : Chat.Chat) : Chat.Chat :=
  {| Chat.voicesMap := Chat.voicesMap c; Chat.voices := Chat.voices c;
     Chat.showChat := true; Chat.msgs := Chat.msgs c;
     Chat.size_x := Chat.size_x c; Chat.size_y := Chat.size_y c;
     Chat.font_getSize := Chat.font_getSize c |}.

Definition push_msg (val : Chat.Msg) (c : Chat.Chat) : Chat.Chat :=
  {| Chat.voicesMap := Chat.voicesMap c; Chat.voices := Chat.voices c;
     Chat.showChat := Chat.showChat c; Chat.msgs := Chat.msgs c ++ [val];
     Chat.size_x := Chat.size_x c; Chat.size_y := Chat.size_y c;
     Chat.font_getSize := Chat.font_getSize c |}.

(** What stands in front of the text given to [say]: the name and the
    dialog line, unless the last message was of the same name.  [isMe] is
    the constant [false] of [onMsg]. *)
Definition name_prefix (last name text : string) : outcome string :=
  let isMe := false in
  let supressName := String.eqb last name && negb isMe in
  if negb supressName
  then esc ← escName name; Ret (esc +:+ " " +:+ getDialogLine text isMe +:+ " ")
  else Ret EmptyString.

(** [Chat::onMsg].  [dedup] gets the fuel that is enough for its input.  The
    arguments of [say] and the operands of [+] are evaluated in an order the
    language leaves open; they are taken from left to right. *)
Definition onMsg (hash : string -> N) (val : Chat.Msg) (s : Speaker) : outcome Speaker :=
  let s1 :=
    {| chat := show (chat s); azureTts := azureTts s; lastName := lastName s;
       said := said s; timer := Some 30000 |} in
  s2 ← (if azureTts s1
        then
          let name := Chat.displayName val in
          let text := Chat.msg val in
          voice ← Chat.getVoice hash (chat s1) name;
          prefix ← name_prefix (lastName s1) name text;
          deduped ← Dedup.dedup (Dedup.fuel_for (length (Dedup.split text))) text;
          Ret {| chat := chat s1; azureTts := azureTts s1; lastName := name;
                 said := said s1 ++ [(voice, prefix +:+ deduped)];
                 timer := timer s1 |}
        else Ret s1);
  Ret (with_chat (push_msg val (chat s2)) s2).

(** The two buttons of the voice mapping in [Chat::renderUi]:
    [if (ImGui::Button("Add##AddVoiceMap")) { if (!chatterVoice.empty())
    voicesMap[chatterName] = chatterVoice; else voicesMap.erase(chatterName); }]
    and [if (ImGui::Button("Del##AddVoiceMap")) voicesMap.erase(chatterName);].
    [add] and [del] say which button was pressed. *)
Definition set_voicesMap (m : gmap string string) (c : Chat.Chat) : Chat.Chat :=
  {| Chat.voicesMap := m; Chat.voices := Chat.voices c;
     Chat.showChat := Chat.showChat c; Chat.msgs := Chat.msgs c;
     Chat.size_x := Chat.size_x c; Chat.size_y := Chat.size_y c;
     Chat.font_getSize := Chat.font_getSize c |}.

Definition voiceButtons (add del : bool) (chatterName chatterVoice : string)
    (c : Chat.Chat) : Chat.Chat :=
  let m1 :=
    if add
    then (if negb (String.eqb chatterVoice EmptyString)
          then <[chatterName := chatterVoice]> (Chat.voicesMap c)
          else delete chatterName (Chat.voicesMap c))
    else Chat.voicesMap c in
  let m2 := if del then delete chatterName m1 else m1 in
  set_voicesMap m2 c.

End WithFloat.
End ChatTts.

(** * The application: duplicating the selected node *)

Module Duplicate.
Import Factory UndoManager App.

(** The do-closure of the duplicate action of [App::processIo]:
    [selected = n.get(); parent->addChild(std::move(n));], where [parent] is
    [selected->parent()] at the time of the record. *)
Definition dup_do (n : Tree) (parent : option N) (w : World) : outcome World :=
  match parent with
  | None => Undef NullDeref
  | Some p =>
      Ret {| root := option_map (addChild p n) (root w);
             selected := Some (addr_of n) |}
  end.

(** Its undo-closure: [Node::del( *n ); selected = oldSelected;] *)
Definition dup_undo (n : Tree) (oldSelected : option N) (w : World) : outcome World :=
  Ret {| root := option_map (del (addr_of n)) (root w); selected := oldSelected |}.

End Duplicate.

(** * Facts *)

(** ** Facts about [dedup] *)

Module DedupFacts.
Import Dedup.

Lemma u32_small n : n < 2 ^ 32 -> u32 n = n.
Proof. intros H. unfold u32. now apply N.mod_small. Qed.

Lemma u64_small n : n < 2 ^ 64 -> u64 n = n.
Proof. intros H. unfold u64. now apply N.mod_small. Qed.

Lemma sub64_small a b : b <= a -> a < 2 ^ 64 -> sub64 a b = a - b.
Proof.
  intros Hba Ha. unfold sub64.
  rewrite (u64_small b) by lia.
  replace (a + 2 ^ 64 - b) with ((a - b) + 1 * 2 ^ 64) by lia.
  unfold u64. rewrite N.Div0.mod_add. apply N.mod_small. lia.
Qed.

(** The block of [w] words at [i], on the list itself. *)
Definition block (words : list string) (i w : nat) : list string :=
  take w (drop i words).

Lemma block_lookup words i w k :
  block words i w !! k = if decide (k < w)%nat then words !! (i + k)%nat else None.
Proof.
  unfold block. case_decide.
  - rewrite lookup_take_lt by done. apply lookup_drop.
  - apply lookup_take_ge. lia.
Qed.

Lemma block_length words i w :
  (i + w <= length words)%nat -> length (block words i w) = w.
Proof. intros H. unfold block. rewrite length_take, length_drop. lia. Qed.

Lemma at_lookup words i :
  (N.to_nat i < length words)%nat -> words !! N.to_nat i = Some (at_ words i).
Proof.
  intros H. unfold at_. destruct (lookup_lt_is_Some_2 words (N.to_nat i) H) as [x Hx].
  rewrite Hx. f_equal. symmetry. now apply nth_lookup_Some with (d := EmptyString).
Qed.

Lemma forallb_upto (P : N -> bool) w :
  forallb P (upto w) = true <-> (forall k, k < w -> P k = true).
Proof.
  unfold upto. rewrite forallb_forall. split.
  - intros H k Hk. apply H. apply in_map_iff. exists (N.to_nat k). split; [lia|].
    apply in_seq. lia.
  - intros H x Hx. apply in_map_iff in Hx as (n & <- & Hn). apply in_seq in Hn.
    apply H. lia.
Qed.

(** [eq] decides that both blocks are inside the list and equal. *)
Lemma eq_true_iff words i j w :
  i < 2 ^ 32 -> j < 2 ^ 32 -> w < 2 ^ 32 ->
  eq words i j w = true <->
  (i + w <= size words /\ j + w <= size words /\
   block words (N.to_nat i) (N.to_nat w) = block words (N.to_nat j) (N.to_nat w)).
Proof.
  intros Hi Hj Hw. unfold eq, size.
  assert (2 ^ 32 + 2 ^ 32 < 2 ^ 64) by (vm_compute; reflexivity).
  rewrite (u64_small (i + w)), (u64_small (j + w)) by lia.
  destruct (N.ltb_spec (N.of_nat (length words)) (i + w)) as [Hiw|Hiw].
  { split; [discriminate | lia]. }
  destruct (N.ltb_spec (N.of_nat (length words)) (j + w)) as [Hjw|Hjw].
  { split; [discriminate | lia]. }
  rewrite forallb_upto. split.
  - intros H'. split; [done|]. split; [done|].
    apply list_eq. intros k. rewrite !block_lookup. case_decide; [|done].
    specialize (H' (N.of_nat k) ltac:(lia)).
    rewrite !u64_small in H' by lia.
    apply String.eqb_eq in H'.
    replace (N.to_nat i + k)%nat with (N.to_nat (i + N.of_nat k)) by lia.
    replace (N.to_nat j + k)%nat with (N.to_nat (j + N.of_nat k)) by lia.
    rewrite !at_lookup by lia. now f_equal.
  - intros (_ & _ & Hb) k Hk. rewrite !u64_small by lia.
    apply String.eqb_eq.
    assert (Hl := f_equal (fun l => l !! N.to_nat k) Hb). cbn in Hl.
    rewrite !block_lookup in Hl. case_decide; [|lia].
    replace (N.to_nat i + N.to_nat k)%nat with (N.to_nat (i + k)) in Hl by lia.
    replace (N.to_nat j + N.to_nat k)%nat with (N.to_nat (j + k)) in Hl by lia.
    rewrite !at_lookup in Hl by lia. congruence.
Qed.

(** [reps words w i r]: the block at [i] is followed by [r - 1] copies of
    itself (the copy number [0] is the block). *)
Definition reps (words : list string) (w i r : N) : Prop :=
  forall c, c < r -> eq words i (i + c * w) w = true.

(** What the erase of [rloop] leaves when the scan stops at [r]. *)
Definition erased (words : list string) (w i r : N) : list string :=
  take (N.to_nat (i + w)) words ++ drop (N.to_nat (i + r * w)) words.

Lemma rloop_ok fuel words w i r :
  size words < 2 ^ 32 -> 1 <= w -> 1 <= r -> i + r * w <= size words ->
  reps words w i r ->
  (N.to_nat (size words) < fuel + N.to_nat r)%nat ->
  exists r', r <= r' /\ i + r' * w <= size words /\ reps words w i r' /\
    eq words i (i + r' * w) w = false /\
    rloop fuel words w i r =
      Ret (if 3 <=? r' then Some (erased words w i r') else None).
Proof.
  intros Hsz Hw. revert r.
  induction fuel as [|fuel IH]; intros r Hr Hin Hreps Hfuel.
  { exfalso. nia. }
  cbn [rloop].
  assert (Hj : u32 (i + u32 (r * w)) = i + r * w).
  { rewrite (u32_small (r * w)) by lia. apply u32_small. lia. }
  rewrite Hj.
  destruct (eq words i (i + r * w) w) eqn:E.
  - pose proof E as E0.
    apply eq_true_iff in E0 as (_ & Hjw & _); [|lia..].
    assert (Hr1 : u32 (r + 1) = r + 1) by (apply u32_small; nia).
    rewrite Hr1.
    destruct (IH (r + 1)) as (r' & Hle & Hin' & Hreps' & Hstop & Hrun); [lia|lia| |lia|].
    { intros c Hc. destruct (N.eq_dec c r) as [->|Hne]; [exact E|apply Hreps; lia]. }
    exists r'. split; [lia|]. done.
  - exists r. split; [lia|]. split; [done|]. split; [done|]. split; [done|].
    rewrite (u32_small (r * w)) by lia.
    destruct (N.leb_spec 3 r) as [H3|H3]; [|done].
    unfold erase.
    destruct (N.leb_spec (i + w) (i + r * w)) as [Ha|Ha]; [|nia].
    destruct (N.leb_spec (i + r * w) (size words)) as [Hb|Hb]; [|lia].
    reflexivity.
Qed.

(** The scan at width [w] and start [i] erases: the block is followed by at
    least two copies of itself, [r] counts the block and all its copies, and
    [words'] keeps the block only. *)
Definition hit (words : list string) (w i : N) (words' : list string) : Prop :=
  exists r, 3 <= r /\ i + r * w <= size words /\ reps words w i r /\
    eq words i (i + r * w) w = false /\ words' = erased words w i r.

(** The scan at [w], [i] breaks: the block is not followed by two copies. *)
Definition miss (words : list string) (w i : N) : Prop :=
  eq words i (i + w) w = false \/ eq words i (i + 2 * w) w = false.

Lemma eq_refl_block words i w :
  i < 2 ^ 32 -> w < 2 ^ 32 -> i + w <= size words -> eq words i i w = true.
Proof. intros. apply eq_true_iff; auto. Qed.

Lemma rloop_start fuel words w i :
  size words < 2 ^ 32 -> 1 <= w -> i + w <= size words ->
  (length words < fuel + 1)%nat ->
  (exists words', hit words w i words' /\ rloop fuel words w i 1 = Ret (Some words')) \/
  (miss words w i /\ rloop fuel words w i 1 = Ret None).
Proof.
  intros Hsz Hw Hin Hfuel.
  destruct (rloop_ok fuel words w i 1) as (r & Hr & Hin' & Hreps & Hstop & Hrun);
    [done|done|lia|lia| |unfold size; lia|].
  { intros c Hc. replace c with 0 by lia. rewrite N.mul_0_l, N.add_0_r.
    apply eq_refl_block; lia. }
  rewrite Hrun. destruct (N.leb_spec 3 r) as [H3|H3].
  - left. eexists. split; [|reflexivity]. exists r. done.
  - right. split; [|reflexivity]. unfold miss.
    assert (r = 1 \/ r = 2) as [->| ->] by lia.
    + left. now rewrite N.mul_1_l in Hstop.
    + right. done.
Qed.

(** The result of the [i] loop entered at [i]. *)
Definition iloop_spec (words : list string) (w i : N) (res : option (list string)) : Prop :=
  match res with
  | Some words' =>
      exists i', i <= i' /\ i' + w < size words /\ hit words w i' words' /\
        forall i'', i <= i'' -> i'' < i' -> miss words w i''
  | None => forall i', i <= i' -> i' + w < size words -> miss words w i'
  end.

Lemma iloop_ok fuel words w i :
  size words < 2 ^ 32 -> 1 <= w -> w <= size words -> i + w <= size words ->
  (2 * length words + 1 < fuel + N.to_nat i + 1)%nat ->
  exists res, iloop fuel words w i = Ret res /\ iloop_spec words w i res.
Proof.
  intros Hsz Hw Hws. revert i.
  induction fuel as [|fuel IH]; intros i Hin Hfuel.
  { exfalso. unfold size in *. lia. }
  cbn [iloop]. rewrite sub64_small by lia.
  destruct (N.ltb_spec i (size words - w)) as [Hlt|Hge].
  - destruct (rloop_start fuel words w i) as [(words' & Hhit & Hrun)|(Hmiss & Hrun)];
      [done|done|lia|unfold size in *; lia| |].
    + rewrite Hrun. exists (Some words'). split; [done|].
      exists i. split; [lia|]. split; [lia|]. split; [done|]. intros; lia.
    + rewrite Hrun. rewrite (u32_small (i + 1)) by lia.
      destruct (IH (i + 1)) as (res & Hres & Hspec); [lia|lia|].
      exists res. split; [done|].
      destruct res as [words'|]; cbn in *.
      * destruct Hspec as (i' & Hle & Hlt' & Hhit & Hmin).
        exists i'. split; [lia|]. split; [done|]. split; [done|].
        intros i'' H1 H2. destruct (N.eq_dec i'' i) as [->|Hne]; [done|].
        apply Hmin; lia.
      * intros i' H1 H2. destruct (N.eq_dec i' i) as [->|Hne]; [done|].
        apply Hspec; lia.
  - exists None. split; [done|]. cbn. intros i' H1 H2. lia.
Qed.

(** The result of the [w] loop entered at [w]. *)
Definition wloop_spec (words : list string) (w : N) (res : option (list string)) : Prop :=
  match res with
  | Some words' =>
      exists w' i', w <= w' /\ w' < size words / 2 /\ i' + w' < size words /\
        hit words w' i' words' /\
        (forall w'' i'', w <= w'' -> w'' < w' -> i'' + w'' < size words -> miss words w'' i'') /\
        (forall i'', i'' < i' -> miss words w' i'')
  | None =>
      forall w' i', w <= w' -> w' < size words / 2 -> i' + w' < size words -> miss words w' i'
  end.

Lemma half_le n : n / 2 <= n.
Proof. apply N.Div0.div_le_upper_bound. lia. Qed.

Lemma wloop_ok fuel words w :
  size words < 2 ^ 32 -> 1 <= w -> w <= size words ->
  (3 * length words + 2 < fuel + N.to_nat w + 1)%nat ->
  exists res, wloop fuel words w = Ret res /\ wloop_spec words w res.
Proof.
  intros Hsz. revert w.
  induction fuel as [|fuel IH]; intros w Hw Hws Hfuel.
  { exfalso. unfold size in *. lia. }
  cbn [wloop].
  pose proof (half_le (size words)) as Hhalf.
  destruct (N.ltb_spec w (size words / 2)) as [Hlt|Hge].
  - destruct (iloop_ok fuel words w 0) as (res & Hrun & Hspec);
      [done|done|lia|lia|unfold size in *; lia|].
    rewrite Hrun. destruct res as [words'|]; cbn in Hspec.
    + exists (Some words'). split; [done|].
      destruct Hspec as (i' & _ & Hlt' & Hhit & Hmin).
      exists w, i'. split; [lia|]. split; [done|]. split; [done|]. split; [done|].
      split; [intros; lia|]. intros i'' Hi''. apply Hmin; lia.
    + rewrite (u32_small (w + 1)) by lia.
      destruct (IH (w + 1)) as (res & Hres & Hspec'); [lia|lia|lia|].
      exists res. split; [done|].
      destruct res as [words'|]; cbn in *.
      * destruct Hspec' as (w' & i' & Hle & Hlt' & Hin & Hhit & Hmin1 & Hmin2).
        exists w', i'. split; [lia|]. split; [done|]. split; [done|]. split; [done|].
        split; [|done].
        intros w'' i'' H1 H2 H3. destruct (N.eq_dec w'' w) as [->|Hne].
        -- apply Hspec; lia.
        -- apply Hmin1; lia.
      * intros w' i' H1 H2 H3. destruct (N.eq_dec w' w) as [->|Hne].
        -- apply Hspec; lia.
        -- apply Hspec'; lia.
  - exists None. split; [done|]. cbn. intros; lia.
Qed.

(** One pass of the three loops that erases, and the word lists on which a
    pass erases nothing. *)
Definition pass_step (words words' : list string) : Prop :=
  wloop_spec words 1 (Some words').

Definition stable (words : list string) : Prop :=
  wloop_spec words 1 None.

Lemma erased_length words w i r :
  1 <= w -> 3 <= r -> i + r * w <= size words ->
  (length (erased words w i r) < length words)%nat.
Proof.
  intros Hw Hr Hin. unfold erased, size in *.
  rewrite length_app, length_take, length_drop. nia.
Qed.

Lemma pass_step_shorter words words' :
  pass_step words words' -> (length words' < length words)%nat.
Proof.
  intros (w & i & Hw & _ & _ & (r & Hr & Hin & _ & _ & ->) & _).
  now apply erased_length.
Qed.

Lemma outer_ok fuel words :
  size words < 2 ^ 32 -> (4 * length words + 4 <= fuel)%nat ->
  exists words', outer fuel words = Ret words' /\
    rtc pass_step words words' /\ stable words'.
Proof.
  revert words. induction fuel as [|fuel IH]; intros words Hsz Hfuel; [lia|].
  cbn [outer].
  destruct (decide (size words = 0)) as [Hz|Hnz].
  { (* no word: the [w] loop is not entered *)
    assert (Hrun : wloop fuel words 1 = Ret None).
    { destruct fuel as [|fuel]; [lia|]. cbn [wloop]. now rewrite Hz. }
    rewrite Hrun. exists words. split; [done|]. split; [done|].
    intros w i Hw Hlt. rewrite Hz in Hlt. change (0 / 2) with 0 in Hlt. lia. }
  destruct (wloop_ok fuel words 1) as (res & Hrun & Hspec);
    [done|lia|unfold size in *; lia|lia|].
  rewrite Hrun. destruct res as [words'|].
  - assert (Hshort := pass_step_shorter _ _ Hspec).
    destruct (IH words') as (words'' & Hrun' & Hsteps & Hstable);
      [unfold size in *; lia|lia|].
    exists words''. split; [done|]. split; [|done].
    eapply rtc_l; eauto.
  - exists words. done.
Qed.

(** *** The passes on the word list itself *)

(** [k] copies of [blk] in a row. *)
Definition copies (k : nat) (blk : list string) : list string :=
  concat (replicate k blk).

(** A run of at least three copies of a block is replaced by the block. *)
Definition collapse (words words' : list string) : Prop :=
  exists pre blk post k, blk <> [] /\ (3 <= k)%nat /\
    words = pre ++ copies k blk ++ post /\ words' = pre ++ blk ++ post.


Lemma copies_snoc k (blk : list string) : copies (S k) blk = copies k blk ++ blk.
Proof.
  unfold copies. induction k as [|k IH]; cbn in *.
  - now rewrite app_nil_r.
  - rewrite IH at 1. now rewrite app_assoc.
Qed.

Lemma blocks_copies words i w blk r :
  (forall c, (c < r)%nat -> block words (i + c * w) w = blk) ->
  take (r * w) (drop i words) = copies r blk.
Proof.
  induction r as [|r IH]; intros Hblk; [done|].
  rewrite copies_snoc, <- IH by (intros; apply Hblk; lia).
  replace (S r * w)%nat with (r * w + w)%nat by lia.
  rewrite <- take_take_drop, drop_drop.
  f_equal. apply (Hblk r). lia.
Qed.

Lemma reps_blocks words w i r :
  size words < 2 ^ 32 -> i + r * w <= size words -> 1 <= w ->
  reps words w i r ->
  forall c, (c < N.to_nat r)%nat ->
    block words (N.to_nat i + c * N.to_nat w) (N.to_nat w)
    = block words (N.to_nat i) (N.to_nat w).
Proof.
  intros Hsz Hin Hw Hreps c Hc.
  specialize (Hreps (N.of_nat c) ltac:(lia)).
  apply eq_true_iff in Hreps as (_ & _ & Hb); [|nia..].
  rewrite Hb. f_equal. lia.
Qed.

Lemma hit_collapse words w i words' :
  size words < 2 ^ 32 -> 1 <= w -> hit words w i words' -> collapse words words'.
Proof.
  intros Hsz Hw (r & Hr & Hin & Hreps & _ & ->).
  pose proof (reps_blocks _ _ _ _ Hsz Hin Hw Hreps) as Hblk.
  apply blocks_copies in Hblk.
  exists (take (N.to_nat i) words), (block words (N.to_nat i) (N.to_nat w)),
    (drop (N.to_nat (i + r * w)) words), (N.to_nat r).
  split.
  { intros Hnil. apply (f_equal length) in Hnil.
    rewrite block_length in Hnil by (unfold size in *; nia). cbn in Hnil. lia. }
  split; [lia|]. split.
  - rewrite <- Hblk.
    replace (N.to_nat (i + r * w)) with (N.to_nat i + N.to_nat r * N.to_nat w)%nat by lia.
    rewrite <- drop_drop, take_drop. now rewrite take_drop.
  - unfold erased, block.
    replace (N.to_nat (i + w)) with (N.to_nat i + N.to_nat w)%nat by lia.
    now rewrite <- take_take_drop, <- app_assoc.
Qed.

Lemma pass_step_collapse words words' :
  size words < 2 ^ 32 -> pass_step words words' -> collapse words words'.
Proof.
  intros Hsz (w & i & Hw & _ & _ & Hhit & _). now apply hit_collapse with w i.
Qed.



(** *** The join *)


Definition sp : string := String space EmptyString.


Lemma append_assoc (a b c : string) : (a +:+ b) +:+ c = a +:+ (b +:+ c).
Proof.
  induction a as [|x a IH]; [reflexivity|].
  change (String x ((a +:+ b) +:+ c) = String x (a +:+ (b +:+ c))).
  now rewrite IH.
Qed.





(** *** More fuel does not change a result *)

Lemma rloop_mono words w i fuel r :
  rloop fuel words w i r <> OutOfFuel ->
  rloop (S fuel) words w i r = rloop fuel words w i r.
Proof.
  revert r. induction fuel as [|fuel IH]; intros r H; [done|].
  cbn [rloop] in *.
  destruct (eq words i (u32 (i + u32 (r * w))) w); [|done].
  now apply IH.
Qed.

Lemma iloop_mono words w fuel i :
  iloop fuel words w i <> OutOfFuel ->
  iloop (S fuel) words w i = iloop fuel words w i.
Proof.
  revert i. induction fuel as [|fuel IH]; intros i H; [done|].
  cbn [iloop] in *.
  destruct (i <? sub64 (size words) w); [|done].
  destruct (rloop fuel words w i 1) as [[words'|]| | |] eqn:E; try done;
    rewrite rloop_mono, E by congruence; try done.
  now apply IH.
Qed.

Lemma wloop_mono words fuel w :
  wloop fuel words w <> OutOfFuel ->
  wloop (S fuel) words w = wloop fuel words w.
Proof.
  revert w. induction fuel as [|fuel IH]; intros w H; [done|].
  cbn [wloop] in *.
  destruct (w <? size words / 2); [|done].
  destruct (iloop fuel words w 0) as [[words'|]| | |] eqn:E; try done;
    rewrite iloop_mono, E by congruence; try done.
  now apply IH.
Qed.

Lemma outer_mono fuel words :
  outer fuel words <> OutOfFuel -> outer (S fuel) words = outer fuel words.
Proof.
  revert words. induction fuel as [|fuel IH]; intros words H; [done|].
  cbn [outer] in *.
  destruct (wloop fuel words 1) as [[words'|]| | |] eqn:E; try done;
    rewrite wloop_mono, E by congruence; try done.
  now apply IH.
Qed.

Lemma outer_more_fuel fuel fuel' words words' :
  outer fuel words = Ret words' -> (fuel <= fuel')%nat -> outer fuel' words = Ret words'.
Proof.
  intros H Hle. induction Hle as [|fuel' Hle IH]; [done|].
  rewrite outer_mono; [done|congruence].
Qed.

Lemma rtc_pass_collapse words words' :
  size words < 2 ^ 32 -> rtc pass_step words words' -> rtc collapse words words'.
Proof.
  intros Hsz Hsteps. induction Hsteps as [|x y z Hxy Hyz IH]; [done|].
  apply rtc_l with y; [now apply pass_step_collapse|].
  apply IH. apply pass_step_shorter in Hxy. unfold size in *. lia.
Qed.

(** *** The claims about [dedup] *)




(** Three equal words are left as they are, four are collapsed: with three
    words [words.size() / 2] is [1], and the [w] loop is not entered. *)
Example dedup_three_equal_words :
  dedup (fuel_for 3) "a a a" = Ret "a a a"%string /\
  dedup (fuel_for 4) "a a a a" = Ret "a"%string.
Proof. split; vm_compute; reflexivity. Qed.

(** C10.  On an input of fewer than [2^32] words [dedup] returns, with the
    same result for all fuel from [fuel_for] on.  A pass of the outer loop
    either erases nothing, and the loop exits, or leaves strictly fewer
    words.  The scan of [r] stops at some [r] with [i + r * w] inside the
    list, where the comparison fails; and the comparison fails whenever the
    second block reaches past the end of the list. *)
Theorem dedup_terminates (var : string) :
  size (split var) < 2 ^ 32 ->
  (exists out, forall fuel, (fuel_for (length (split var)) <= fuel)%nat ->
     dedup fuel var = Ret out) /\
  (forall words fuel, size words < 2 ^ 32 -> (3 * length words + 2 <= fuel)%nat ->
     (wloop fuel words 1 = Ret None /\ outer (S fuel) words = Ret words) \/
     (exists words', wloop fuel words 1 = Ret (Some words') /\
        (length words' < length words)%nat /\
        outer (S fuel) words = outer fuel words')) /\
  (forall words w i fuel,
     size words < 2 ^ 32 -> 1 <= w -> i + w <= size words ->
     (length words <= fuel)%nat ->
     exists r, 1 <= r /\ i + r * w <= size words /\
       eq words i (i + r * w) w = false /\
       rloop fuel words w i 1
         = Ret (if 3 <=? r then Some (erased words w i r) else None)) /\
  (forall words i j w, j < 2 ^ 32 -> w < 2 ^ 32 -> size words < j + w ->
     eq words i j w = false).
Proof.
  intros Hsz. split; [|split; [|split]].
  - destruct (outer_ok (fuel_for (length (split var))) (split var))
      as (words' & Hrun & _); [done|unfold fuel_for; lia|].
    exists (join words'). intros fuel Hfuel. unfold dedup.
    now rewrite (outer_more_fuel _ fuel _ _ Hrun Hfuel).
  - intros words fuel Hw Hfuel.
    destruct (decide (size words = 0)) as [Hz|Hnz].
    { left. assert (Hrun : wloop fuel words 1 = Ret None).
      { destruct fuel as [|fuel]; [lia|]. cbn [wloop]. now rewrite Hz. }
      cbn [outer]. now rewrite Hrun. }
    destruct (wloop_ok fuel words 1) as (res & Hrun & Hspec);
      [done|lia|unfold size in *; lia|lia|].
    cbn [outer]. rewrite Hrun. destruct res as [words'|]; [right|left; done].
    exists words'. split; [done|]. split; [|done]. now apply pass_step_shorter.
  - intros words w i fuel Hw H1 Hin Hfuel.
    destruct (rloop_ok fuel words w i 1) as (r & Hr & Hin' & _ & Hstop & Hrun);
      [done|done|lia|lia| |unfold size; lia|].
    { intros c Hc. replace c with 0 by lia. rewrite N.mul_0_l, N.add_0_r.
      apply eq_refl_block; lia. }
    exists r. done.
  - intros words i j w Hj Hw Hlt. unfold eq.
    assert (2 ^ 32 + 2 ^ 32 < 2 ^ 64) by (vm_compute; reflexivity).
    rewrite (u64_small (j + w)) by lia.
    destruct (size words <? u64 (i + w)); [done|].
    destruct (N.ltb_spec (size words) (j + w)); [done|lia].
Qed.

Lemma dedup_terminates_witness :
  exists out, dedup (fuel_for 5) "b b b b b" = Ret out.
Proof.
  destruct (dedup_terminates "b b b b b") as [[out Hout] _].
  - vm_compute. reflexivity.
  - exists out. apply Hout. vm_compute. lia.
Defined.

End DedupFacts.

(** ** Facts about the chat node and the sprite *)

Module RenderFacts.
Section WithFloat.
Context `{FloatOps}.

Lemma base_calls_app (a b : list event) :
  base_calls (a ++ b) = base_calls a ++ base_calls b.
Proof. apply List.filter_app. Qed.

Lemma render_lines_no_base c m dim lines y :
  base_calls (Chat.render_lines c m dim lines y).1 = [].
Proof.
  revert y. induction lines as [|ln rest IH]; intros y; cbn [Chat.render_lines]; [done|].
  destruct (fgt y (Chat.h c)); [done|].
  specialize (IH (fadd y dim.2)).
  destruct (Chat.render_lines c m dim rest (fadd y dim.2)) as [trace y'].
  cbn [fst] in *. rewrite base_calls_app, IH, app_nil_r.
  now destruct rest.
Qed.

Lemma render_msgs_no_base c ms y : base_calls (Chat.render_msgs c ms y) = [].
Proof.
  revert y. induction ms as [|m rest IH]; intros y; cbn [Chat.render_msgs]; [done|].
  pose proof (render_lines_no_base c m (Chat.font_getSize c (Chat.displayName m))
    (rev (Chat.wrapText c (": " +:+ Chat.msg m)
            (Chat.font_getSize c (Chat.displayName m)).1)) y) as Hl.
  destruct (Chat.render_lines _ _ _ _ _) as [trace y'].
  cbn [fst] in Hl.
  change (base_calls (?e :: ?l)) with (base_calls ([e] ++ l)).
  rewrite !base_calls_app, Hl.
  destruct (fgt y' (Chat.h c)); [done|]. now rewrite IH.
Qed.

Lemma imod_pos a b : (1 <= b)%Z -> imod a b = Ret (Z.rem a b).
Proof.
  intros Hb. unfold imod.
  destruct (Z.eqb_spec b 0); [lia|].
  destruct (Z.eqb_spec b (-1)); [lia|]. now rewrite andb_false_r.
Qed.

Lemma idiv_pos a b : (1 <= b)%Z -> idiv a b = Ret (Z.quot a b).
Proof.
  intros Hb. unfold idiv.
  destruct (Z.eqb_spec b 0); [lia|].
  destruct (Z.eqb_spec b (-1)); [lia|]. now rewrite andb_false_r.
Qed.

Lemma imod_ok a b :
  b <> 0%Z -> ~ (a = int_min /\ b = (-1)%Z) -> imod a b = Ret (Z.rem a b).
Proof.
  intros Hb Hov. unfold imod.
  destruct (Z.eqb_spec b 0); [done|].
  destruct (Z.eqb_spec a int_min), (Z.eqb_spec b (-1)); cbn [andb]; tauto.
Qed.

Lemma idiv_ok a b :
  b <> 0%Z -> ~ (a = int_min /\ b = (-1)%Z) -> idiv a b = Ret (Z.quot a b).
Proof.
  intros Hb Hov. unfold idiv.
  destruct (Z.eqb_spec b 0); [done|].
  destruct (Z.eqb_spec a int_min), (Z.eqb_spec b (-1)); cbn [andb]; tauto.
Qed.

Lemma fdiv_int_ret x n : fdiv_int x n = Ret (fdiv x (f_of_int n)).
Proof. reflexivity. Qed.






(** C6, as the code has it.  [Chat::render] calls the base [Node::render]
    once, with the arguments it was given, whatever [showChat] is.
    [Sprite::render] does so, as its last call, on every sprite whose [cols]
    is not zero, unless [frame] is [INT_MIN] and [cols] is [-1]; [rows] may
    be anything, also zero, since it is only a float divisor.  With [cols]
    zero the remainder [frame % cols] is undefined, and with [INT_MIN] and
    [-1] it overflows: no base call is made by defined behaviour. *)
Theorem render_calls_base_once :
  (forall (c : Chat.Chat) dt hovered selected,
     base_calls (Chat.render c dt hovered selected) = [NodeRender dt hovered selected]) /\
  (forall (s : Sprite.Sprite) dt hovered selected,
     Sprite.cols s <> 0%Z ->
     ~ (Sprite.frame s = int_min /\ Sprite.cols s = (-1)%Z) ->
     exists trace, Sprite.render s dt hovered selected = Ret trace /\
       base_calls trace = [NodeRender dt hovered selected] /\
       last trace = Some (NodeRender dt hovered selected)) /\
  (forall (s : Sprite.Sprite) dt hovered selected,
     Sprite.cols s = 0%Z ->
     Sprite.render s dt hovered selected = Undef DivByZero) /\
  (forall (s : Sprite.Sprite) dt hovered selected,
     Sprite.frame s = int_min -> Sprite.cols s = (-1)%Z ->
     Sprite.render s dt hovered selected = Undef IntOverflow).
Proof.
  split; [|split; [|split]].
  - intros c dt hovered selected. unfold Chat.render.
    destruct (Chat.showChat c); cbn [negb]; [|done].
    now rewrite base_calls_app, render_msgs_no_base.
  - intros s dt hovered selected Hc Hov. unfold Sprite.render, Sprite.w, Sprite.h.
    rewrite imod_ok by done. cbn [mbind outcome_mbind outcome_bind].
    rewrite fdiv_int_ret. cbn [mbind outcome_mbind outcome_bind].
    rewrite idiv_ok by done. cbn [mbind outcome_mbind outcome_bind].
    rewrite !fdiv_int_ret. cbn [mbind outcome_mbind outcome_bind].
    eexists. split; [reflexivity|]. split; reflexivity.
  - intros s dt hovered selected Hc. unfold Sprite.render, imod. now rewrite Hc.
  - intros s dt hovered selected Hf Hc. unfold Sprite.render, imod. now rewrite Hf, Hc.
Qed.

(** C8.  With a voice in the list, [getVoice] returns the entry of the map
    for a mapped name and the voice at [(hash(n) ^ 1) % voices.size()], an
    index inside the list, otherwise.  With no voice in the list and no
    entry for the name the index is a remainder by zero. *)
Theorem getVoice_spec (hash : string -> N) (c : Chat.Chat) (n : string) :
  (Chat.voices c <> [] ->
   match Chat.voicesMap c !! n with
   | Some v => Chat.getVoice hash c n = Ret v
   | None =>
       let idx := N.to_nat (N.lxor (u64 (hash n)) 1 mod N.of_nat (length (Chat.voices c))) in
       (idx < length (Chat.voices c))%nat /\
       exists v, Chat.voices c !! idx = Some v /\ Chat.getVoice hash c n = Ret v
   end) /\
  (Chat.voices c = [] -> Chat.voicesMap c !! n = None ->
   Chat.getVoice hash c n = Undef DivByZero).
Proof.
  unfold Chat.getVoice. split.
  - intros Hne. destruct (Chat.voicesMap c !! n) as [v|]; [done|].
    assert (Hlen : N.of_nat (length (Chat.voices c)) <> 0).
    { destruct (Chat.voices c); [done|cbn; lia]. }
    destruct (N.eqb_spec (N.of_nat (length (Chat.voices c))) 0) as [|_]; [done|].
    cbn zeta.
    assert (Hidx : (N.to_nat (N.lxor (u64 (hash n)) 1
                      mod N.of_nat (length (Chat.voices c)))
                    < length (Chat.voices c))%nat).
    { pose proof (N.mod_lt (N.lxor (u64 (hash n)) 1) _ Hlen). lia. }
    split; [done|].
    destruct (lookup_lt_is_Some_2 _ _ Hidx) as [v Hv].
    exists v. now rewrite Hv.
  - intros Hnil Hnone. rewrite Hnone, Hnil. reflexivity.
Qed.


End WithFloat.

(** *** The theorems at work: exact rational arithmetic for [float] *)

#[local] Instance exact_floats : FloatOps := {|
  float := Q;
  f_of_int := inject_Z;
  fadd := Qplus;
  fsub := Qminus;
  fmul := Qmult;
  fdiv := Qdiv;
  fgt := fun x y => negb (Qle_bool x y);
  f_to_int := fun x => Some (Z.quot (Qnum x) (Zpos (Qden x)))
|}.

Definition sheet : Sprite.Texture :=
  {| Sprite.tex_name := 7; Sprite.tex_w := 64; Sprite.tex_h := 32; Sprite.tex_ch := 3;
     Sprite.imageData := None |}.

Definition walker : Sprite.Sprite :=
  {| Sprite.texture := sheet; Sprite.cols := 4; Sprite.rows := 2;
     Sprite.numFrames := 8; Sprite.frame := 5; Sprite.zOrder := 1 |}.

Definition hello : Chat.Msg :=
  {| Chat.displayName := "mika"; Chat.msg := "hello there";
     Chat.color := (inject_Z 1, inject_Z 0, inject_Z 0) |}.

Definition overlay (shown : bool) : Chat.Chat :=
  {| Chat.voicesMap := {[ "mika"%string := "en-US-Jenny"%string ]};
     Chat.voices := ["en-US-Guy"; "en-GB-Ryan"; "en-US-Aria"]%string;
     Chat.showChat := shown;
     Chat.msgs := [hello; hello];
     Chat.size_x := inject_Z 40; Chat.size_y := inject_Z 100;
     Chat.font_getSize := fun text =>
       (inject_Z (Z.of_nat (String.length text) * 8), inject_Z 16) |}.

(** A sprite as a project file can give it to [Sprite::load], which does
    not clamp the fields: no row.  (The quotients by zero of the instance
    stand for the infinities and NaNs; the base call does not depend on
    them.) *)
Definition flat_walker : Sprite.Sprite :=
  {| Sprite.texture := sheet; Sprite.cols := 4; Sprite.rows := 0;
     Sprite.numFrames := 8; Sprite.frame := 5; Sprite.zOrder := 1 |}.

(** And one with no column. *)
Definition thin_walker : Sprite.Sprite :=
  {| Sprite.texture := sheet; Sprite.cols := 0; Sprite.rows := 2;
     Sprite.numFrames := 8; Sprite.frame := 5; Sprite.zOrder := 1 |}.

Lemma render_calls_base_once_witness :
  base_calls (Chat.render (overlay false) (inject_Z 1) None (Some 3))
    = [NodeRender (inject_Z 1) None (Some 3)] /\
  base_calls (Chat.render (overlay true) (inject_Z 1) None (Some 3))
    = [NodeRender (inject_Z 1) None (Some 3)] /\
  (exists trace, Sprite.render walker (inject_Z 1) None (Some 3) = Ret trace /\
     base_calls trace = [NodeRender (inject_Z 1) None (Some 3)]) /\
  (exists trace, Sprite.render flat_walker (inject_Z 1) None (Some 3) = Ret trace /\
     base_calls trace = [NodeRender (inject_Z 1) None (Some 3)]).
Proof.
  destruct (@render_calls_base_once exact_floats) as (Hchat & Hsprite & _).
  split; [apply Hchat|]. split; [apply Hchat|]. split.
  - destruct (Hsprite walker (inject_Z 1) None (Some 3)) as (trace & Hrun & Hbase & _);
      [discriminate|intros [Hf _]; discriminate|].
    exists trace. split; [exact Hrun|exact Hbase].
  - destruct (Hsprite flat_walker (inject_Z 1) None (Some 3)) as (trace & Hrun & Hbase & _);
      [discriminate|intros [Hf _]; discriminate|].
    exists trace. split; [exact Hrun|exact Hbase].
Defined.

(** C6 as stated fails on a sprite with no column: [frame % cols] is a
    remainder by zero, and [Sprite::render] makes no base call by defined
    behaviour. *)
Lemma render_zero_cols_counterexample :
  Sprite.cols thin_walker = 0%Z /\
  Sprite.render thin_walker (inject_Z 1) None (Some 3) = Undef DivByZero /\
  ~ (exists trace, Sprite.render thin_walker (inject_Z 1) None (Some 3) = Ret trace /\
       base_calls trace = [NodeRender (inject_Z 1) None (Some 3)]).
Proof.
  split; [reflexivity|]. split; [reflexivity|].
  intros (trace & Hrun & _). discriminate.
Qed.

Definition length_hash (n : string) : N := N.of_nat (String.length n).

Lemma getVoice_spec_witness :
  Chat.getVoice length_hash (overlay true) "mika" = Ret "en-US-Jenny"%string /\
  exists v, Chat.getVoice length_hash (overlay true) "guest" = Ret v.
Proof.
  split.
  - apply (getVoice_spec length_hash (overlay true) "mika").
    discriminate.
  - destruct (getVoice_spec length_hash (overlay true) "guest") as [Hsome _].
    destruct Hsome as (_ & v & _ & Hv); [discriminate|].
    exists v. exact Hv.
Defined.


End RenderFacts.

(** ** Facts about the undo manager *)

Module UndoFacts.
Import UndoManager.
Section Manager.
Context {St : Type}.

Lemma record_all_unwinds (acts : list (@Action St)) : forall (u : Undo) (s : St),
  inverses_from s acts ->
  exists (u1 : Undo) (s1 : St) (ub : Undo),
    record_all acts u s = Ret (u1, s1) /\ done ub = done u /\
    forall k, undo_n (length acts + k) u1 s1 = undo_n k ub s.
Proof.
  induction acts as [|a rest IH]; intros u s Hinv.
  - exists u, s, u. done.
  - destruct Hinv as (s' & Hdo & Hundo & Hrest).
    cbn [record_all]. unfold record. rewrite Hdo.
    cbn [mbind outcome_mbind outcome_bind fst snd].
    destruct (IH {| done := a :: done u; undone := [] |} s' Hrest)
      as (u1 & s1 & ub & Hrun & Hdone & Hback).
    exists u1, s1, {| done := done u; undone := a :: undone ub |}.
    split; [done|]. split; [done|]. intros k.
    replace (length (a :: rest) + k)%nat with (length rest + S k)%nat by (cbn; lia).
    rewrite Hback. cbn [undo_n]. unfold undo. rewrite Hdone. cbn [done].
    rewrite Hundo. reflexivity.
Qed.

(** C3.  After [N] calls of [record] and then [N] calls of [undo] the state
    is the state before the first [record], and the done-stack is the stack
    before it; the recorded actions are actions as the spec defines them
    (the undo-closure inverts the do-closure at the state of the record). *)
Theorem record_n_undo_n (acts : list (@Action St)) (u : Undo) (s : St) :
  inverses_from s acts ->
  exists u' : Undo,
    (p ← record_all acts u s; undo_n (length acts) p.1 p.2) = Ret (u', s) /\
    done u' = done u.
Proof.
  intros Hinv.
  destruct (record_all_unwinds acts u s Hinv) as (u1 & s1 & ub & Hrun & Hdone & Hback).
  exists ub. rewrite Hrun. cbn [mbind outcome_mbind outcome_bind fst snd].
  specialize (Hback 0%nat). rewrite Nat.add_0_r in Hback. now rewrite Hback.
Qed.

End Manager.

(** The spec's example: [record(setX(5), setX(0))] on [x = 0]. *)
Definition setX (v : Z) : Z -> outcome Z := fun _ => Ret v.

Definition setX_5_0 : Action := {| doFn := setX 5; undoFn := setX 0 |}.
Definition setX_9_5 : Action := {| doFn := setX 9; undoFn := setX 5 |}.

Lemma record_n_undo_n_witness :
  exists u',
    (p ← record_all [setX_5_0; setX_9_5] {| done := []; undone := [] |} 0%Z;
     undo_n 2 p.1 p.2) = Ret (u', 0%Z) /\
    done u' = [].
Proof.
  apply (record_n_undo_n [setX_5_0; setX_9_5] {| done := []; undone := [] |} 0%Z).
  cbn. eauto 10.
Defined.

End UndoFacts.

(** ** Facts about the project file *)

Module PrjFacts.
Import Factory Prj.

Section WithCodec.
Context `{Collaborators} `{Codec}.

(** What the codec can hold. *)
Definition str_ok (s : string) : Prop := N.of_nat (String.length s) < 2 ^ 32.

Definition val_ok (v : Val) : Prop :=
  match v with
  | VWord bits => bits < 2 ^ 32
  | VStr s => str_ok s
  end.

Definition same_type (a b : Val) : Prop :=
  match a, b with
  | VWord _, VWord _ => True
  | VStr _, VStr _ => True
  | _, _ => False
  end.

(** The fields [ps] are fields of an object constructed with the fields
    [dflt]: as many, of the same types, each one a value the codec holds. *)
Definition props_ok (dflt ps : Props) : Prop :=
  Forall2 same_type dflt ps /\ Forall val_ok ps.

(** An object of the tree is one the factory constructs again from its type
    name and its instance name: the constructor does not throw, and it gives
    the node the name it is given. *)
Definition obj_ok (o : Obj) : Prop :=
  construct (kind o) (name o) = Ret (newObj (kind o) (name o)) /\
  ctorName (kind o) (name o) = name o /\
  str_ok (name o) /\
  props_ok (defaults (kind o)).1.1 (own o) /\
  (if isSprite (kind o) then props_ok (defaults (kind o)).1.2 (sprite o)
   else sprite o = (defaults (kind o)).1.2) /\
  props_ok (defaults (kind o)).2 (base o).

Inductive wf : Node -> Prop :=
| wf_node o ns :
    obj_ok o -> N.of_nat (length ns) < 2 ^ 32 -> Forall wf ns -> wf (mkNode o ns).

(** The record of a node after its type name and its instance name. *)
Definition payload (o : Obj) : Strm :=
  ser_props (own o) ++ (if isSprite (kind o) then Sprite_save o else Node_save o).

Definition body (n : Node) : Strm :=
  payload (obj_of n) ++ ser_u32 (N.of_nat (length (nodes_of n))) ++
  concat (map saveAll (nodes_of n)).

Lemma save_payload o :
  save o = ser_str (className (kind o)) ++ ser_str (name o) ++ payload o.
Proof. unfold save, payload, Chat_save. now destruct (kind o). Qed.

Lemma saveAll_body n :
  saveAll n = ser_str (className (kind (obj_of n))) ++ ser_str (name (obj_of n)) ++ body n.
Proof.
  destruct n as [o ns]. cbn [saveAll obj_of nodes_of]. unfold body. cbn [obj_of nodes_of].
  rewrite save_payload. now rewrite <- !app_assoc.
Qed.

(** Every object the factory constructs has a name the factory gives again:
    the condition of [obj_ok] on the name holds in every tree the program
    builds. *)
Fixpoint no_slash (s : string) : bool :=
  match s with
  | EmptyString => true
  | String c rest => negb (Ascii.eqb c "/"%char) && no_slash rest
  end.

Lemma append_String (cur : string) (c : ascii) (rest : string) :
  (cur +:+ String c EmptyString) +:+ rest = cur +:+ String c rest.
Proof.
  induction cur as [|x cur IH]; [reflexivity|].
  change (String x ((cur +:+ String c EmptyString) +:+ rest) = String x (cur +:+ String c rest)).
  now rewrite IH.
Qed.

Lemma no_slash_app (a b : string) :
  no_slash (a +:+ b) = no_slash a && no_slash b.
Proof.
  induction a as [|x a IH]; [reflexivity|].
  change (negb (Ascii.eqb x "/"%char) && no_slash (a +:+ b)
          = negb (Ascii.eqb x "/"%char) && no_slash a && no_slash b).
  rewrite IH. now rewrite andb_assoc.
Qed.

Lemma filename_from_no_slash path : forall cur,
  no_slash cur = true -> no_slash (filename_from cur path) = true.
Proof.
  induction path as [|c path IH]; intros cur Hcur; cbn [filename_from]; [done|].
  destruct (Ascii.eqb c "/"%char) eqn:E; [now apply IH|].
  apply IH. rewrite no_slash_app, Hcur. cbn [no_slash]. now rewrite E.
Qed.

Lemma filename_from_id path : forall cur,
  no_slash path = true -> filename_from cur path = cur +:+ path.
Proof.
  induction path as [|c path IH]; intros cur Hp; cbn [filename_from].
  - induction cur as [|x cur IHc]; [reflexivity|].
    change (String x cur = String x (cur +:+ EmptyString)). now rewrite <- IHc.
  - cbn [no_slash] in Hp. apply andb_prop in Hp as [Hc Hp].
    destruct (Ascii.eqb c "/"%char); [done|].
    rewrite IH by done. apply append_String.
Qed.

Lemma ctorName_stable k nm : ctorName k (ctorName k nm) = ctorName k nm.
Proof.
  destruct k; cbn [ctorName]; try reflexivity;
    unfold filename; apply (filename_from_id _ EmptyString);
    now apply filename_from_no_slash.
Qed.

Lemma lookup_className k : lookup (className k) = Some k.
Proof. now destruct k. Qed.

Lemma className_ok k : str_ok (className k).
Proof. destruct k; unfold str_ok; cbn; lia. Qed.

Lemma deser_ser_props dflt ps rest :
  props_ok dflt ps -> deser_props dflt (ser_props ps ++ rest) = Ret (ps, rest).
Proof.
  intros [Hshape Hok]. revert rest.
  induction Hshape as [|d v dflt ps Hdv Hshape IH]; intros rest; [done|].
  apply Forall_cons_1 in Hok as [Hv Hok].
  unfold ser_props. cbn [map concat deser_props]. rewrite <- app_assoc.
  assert (Hval : deser_val d (ser_val v ++ concat (map ser_val ps) ++ rest)
                 = Ret (v, concat (map ser_val ps) ++ rest)).
  { destruct d, v; try done; cbn [deser_val ser_val].
    - now rewrite deser_ser_u32.
    - now rewrite deser_ser_str. }
  rewrite Hval. cbn [mbind outcome_mbind outcome_bind fst snd].
  fold (ser_props ps). now rewrite IH.
Qed.

Lemma load_payload o rest :
  obj_ok o -> load (newObj (kind o) (name o)) (payload o ++ rest) = Ret (o, rest).
Proof.
  intros (_ & Hname & _ & Hown & Hsprite & Hbase).
  destruct o as [k nm ow sp bs]. cbn [kind name own sprite base] in *.
  unfold payload, load, Chat_load, Sprite_load, Node_load, Sprite_save, Node_save, newObj.
  cbn [kind name own sprite base]. rewrite Hname.
  destruct k; cbn [isSprite] in *; subst;
    rewrite <- ?app_assoc;
    repeat (rewrite deser_ser_props by done;
            cbn [mbind outcome_mbind outcome_bind fst snd kind name own sprite base]);
    reflexivity.
Qed.

Lemma depth_child c ns :
  In c ns -> (depth c <= fold_right (fun c d => Nat.max (depth c) d) O ns)%nat.
Proof.
  induction ns as [|x ns IH]; intros Hin; [done|].
  cbn [fold_right]. destruct Hin as [->|Hin]; [lia|]. specialize (IH Hin). lia.
Qed.

Lemma load_children_saved (rec : Obj -> Strm -> outcome (Node * Strm)) ns rest :
  Forall (fun c => obj_ok (obj_of c) /\
            forall rest', rec (newObj (kind (obj_of c)) (name (obj_of c))) (body c ++ rest')
                          = Ret (c, rest')) ns ->
  load_children rec (length ns) (concat (map saveAll ns) ++ rest) = Ret (ns, rest).
Proof.
  induction 1 as [|c ns [Hobj Hrec] _ IH]; [done|].
  cbn [length map concat load_children].
  rewrite saveAll_body, <- !app_assoc.
  rewrite deser_ser_str by apply className_ok.
  cbn [reading mbind outcome_mbind outcome_bind fst snd].
  rewrite deser_ser_str by apply Hobj.
  cbn [reading mbind outcome_mbind outcome_bind fst snd].
  unfold ctor. rewrite lookup_className.
  destruct Hobj as (-> & _).
  cbn [mbind outcome_mbind outcome_bind fst snd].
  rewrite Hrec. cbn [mbind outcome_mbind outcome_bind fst snd].
  now rewrite IH.
Qed.

Lemma loadAll_body fuel : forall n rest,
  wf n -> (depth n <= fuel)%nat ->
  loadAll fuel (newObj (kind (obj_of n)) (name (obj_of n))) (body n ++ rest) = Ret (n, rest).
Proof.
  induction fuel as [|fuel IH]; intros n rest Hwf Hdepth.
  { destruct n; cbn in Hdepth; lia. }
  destruct Hwf as [o ns Hobj Hcount Hns].
  cbn [loadAll obj_of nodes_of]. unfold body. cbn [obj_of nodes_of].
  rewrite <- !app_assoc, load_payload by done.
  cbn [mbind outcome_mbind outcome_bind fst snd].
  rewrite deser_ser_u32 by done.
  cbn [reading mbind outcome_mbind outcome_bind fst snd].
  rewrite Nat2N.id, load_children_saved; [done|].
  apply Forall_forall. intros c Hc. split.
  - rewrite Forall_forall in Hns. specialize (Hns c Hc). now destruct Hns.
  - intros rest'. apply IH.
    + rewrite Forall_forall in Hns. now apply Hns.
    + cbn [depth] in Hdepth.
      pose proof (depth_child c ns (proj1 (list_elem_of_In _ _) Hc)). lia.
Qed.

(** C1.  A tree of nodes as the factory constructs them, saved as a project
    and loaded again, is the same tree: the same type name, instance name
    and fields in every node, the same children in the same order. *)
Theorem savePrj_loadPrj (root : Node) (fuel : nat) :
  wf root -> (depth root <= fuel)%nat ->
  loadPrj fuel (savePrj (Some root)) = Ret root.
Proof.
  intros Hwf Hfuel. unfold savePrj, loadPrj.
  rewrite deser_ser_u32 by (vm_compute; reflexivity).
  cbn [reading mbind outcome_mbind outcome_bind fst snd].
  rewrite N.eqb_refl. cbn [negb].
  rewrite saveAll_body.
  rewrite deser_ser_str by apply className_ok.
  cbn [reading mbind outcome_mbind outcome_bind fst snd].
  assert (Hobj : obj_ok (obj_of root)) by (now destruct Hwf).
  rewrite deser_ser_str by apply Hobj.
  cbn [reading mbind outcome_mbind outcome_bind fst snd].
  unfold ctor. rewrite lookup_className.
  destruct Hobj as (-> & _).
  cbn [mbind outcome_mbind outcome_bind fst snd].
  rewrite <- (app_nil_r (body root)), loadAll_body by done.
  reflexivity.
Qed.

(** C2.  If the project file cannot be opened, or if the version read from
    it is not [ver], [loadPrj] returns (it neither throws nor leaves defined
    behaviour) and the root is a new [Root] without children; nothing of
    the stream after the version is read. *)
Theorem loadPrj_falls_back :
  (forall fuel, loadPrj fuel None = Ret (mkNode newRoot [])) /\
  (forall fuel buf v rest,
     deser_u32 buf = Some (v, rest) -> v <> ver ->
     loadPrj fuel (Some buf) = Ret (mkNode newRoot [])).
Proof.
  split; [done|]. intros fuel buf v rest Hv Hne. unfold loadPrj.
  rewrite Hv. cbn [reading mbind outcome_mbind outcome_bind fst snd].
  destruct (N.eqb_spec v ver); [done|reflexivity].
Qed.

End WithCodec.

(** *** A codec: little-endian words, strings with their length in front *)

Definition byte_of (n : N) : byte :=
  match Byte.of_N (n mod 256) with
  | Some b => b
  | None => "000"%byte
  end.

Definition le_ser_u32 (n : N) : Strm :=
  [byte_of n; byte_of (n / 256); byte_of (n / 256 / 256); byte_of (n / 256 / 256 / 256)].

Definition le_deser_u32 (strm : Strm) : option (N * Strm) :=
  match strm with
  | b0 :: b1 :: b2 :: b3 :: rest =>
      Some (Byte.to_N b0 + 256 * (Byte.to_N b1 + 256 * (Byte.to_N b2 + 256 * Byte.to_N b3)),
            rest)
  | _ => None
  end.

Definition le_ser_str (s : string) : Strm :=
  le_ser_u32 (N.of_nat (String.length s)) ++ list_byte_of_string s.

Definition le_deser_str (strm : Strm) : option (string * Strm) :=
  match le_deser_u32 strm with
  | Some (n, rest) =>
      if (N.to_nat n <=? length rest)%nat
      then Some (string_of_list_byte (take (N.to_nat n) rest), drop (N.to_nat n) rest)
      else None
  | None => None
  end.

Lemma to_N_byte_of n : Byte.to_N (byte_of n) = n mod 256.
Proof.
  unfold byte_of. destruct (Byte.of_N (n mod 256)) as [b|] eqn:E.
  - now apply Byte.to_of_N.
  - apply Byte.of_N_None_iff in E.
    pose proof (N.mod_lt n 256 ltac:(lia)). lia.
Qed.

Lemma le_deser_ser_u32 n rest :
  n < 2 ^ 32 -> le_deser_u32 (le_ser_u32 n ++ rest) = Some (n, rest).
Proof.
  intros Hn. unfold le_ser_u32, le_deser_u32. cbn [app].
  rewrite !to_N_byte_of. f_equal. f_equal.
  assert (H3 : n / 256 / 256 / 256 < 256).
  { repeat (apply N.Div0.div_lt_upper_bound). exact Hn. }
  rewrite (N.mod_small _ _ H3).
  pose proof (N.div_mod n 256 ltac:(lia)).
  pose proof (N.div_mod (n / 256) 256 ltac:(lia)).
  pose proof (N.div_mod (n / 256 / 256) 256 ltac:(lia)).
  lia.
Qed.

Lemma length_list_byte_of_string s : length (list_byte_of_string s) = String.length s.
Proof.
  unfold list_byte_of_string. rewrite length_map.
  induction s as [|c s IH]; [reflexivity|].
  change (S (length (list_ascii_of_string s)) = S (String.length s)). now rewrite IH.
Qed.

Lemma le_deser_ser_str s rest :
  N.of_nat (String.length s) < 2 ^ 32 -> le_deser_str (le_ser_str s ++ rest) = Some (s, rest).
Proof.
  intros Hs. unfold le_ser_str, le_deser_str.
  rewrite <- app_assoc, le_deser_ser_u32 by done.
  rewrite Nat2N.id, <- length_list_byte_of_string.
  rewrite length_app.
  destruct (Nat.leb_spec (length (list_byte_of_string s))
              (length (list_byte_of_string s) + length rest)); [|lia].
  rewrite take_app_length, drop_app_length.
  now rewrite string_of_list_byte_of_string.
Qed.

#[local] Instance le_codec : Codec := {|
  ser_u32 := le_ser_u32;
  deser_u32 := le_deser_u32;
  ser_str := le_ser_str;
  deser_str := le_deser_str;
  deser_ser_u32 := le_deser_ser_u32;
  deser_ser_str := le_deser_ser_str
|}.

(** *** A project *)

#[local] Instance studio : Collaborators := {|
  rootName := "root";
  bouncerName := "bouncer";
  defaults := fun k =>
    match k with
    | Mouth | AnimSprite | Eye =>
        ([VWord 0], [VWord 1; VWord 1; VWord 1], [VWord 0; VWord 0; VWord 0])
    | Chat => ([VWord 0; VWord 0; VWord 16], [], [VWord 0; VWord 0; VWord 0])
    | _ => ([], [], [VWord 0; VWord 0; VWord 0])
    end;
  failure := fun k nm =>
    if isSprite k && String.eqb (filename nm) "missing.png"
    then Some "cannot load the texture"%string else None
|}.

Definition mouth : Node :=
  mkNode {| kind := Mouth; name := "mouth.png"; own := [VWord 3];
            sprite := [VWord 3; VWord 5; VWord 15]; base := [VWord 10; VWord 20; VWord 2] |} [].

Definition body_sprite : Node :=
  mkNode {| kind := AnimSprite; name := "body.png"; own := [VWord 30];
            sprite := [VWord 4; VWord 2; VWord 8]; base := [VWord 7; VWord 9; VWord 1] |}
         [mouth].

Definition chat : Node :=
  mkNode {| kind := Chat; name := "mika314"; own := [VWord 320; VWord 200; VWord 24];
            sprite := []; base := [VWord 0; VWord 0; VWord 5] |} [].

Definition project : Node :=
  mkNode {| kind := Root; name := "root"; own := []; sprite := [];
            base := [VWord 0; VWord 0; VWord 0] |}
         [body_sprite; chat].

Ltac check_obj :=
  unfold obj_ok, props_ok, str_ok; cbn;
  repeat (first [ split | apply Forall2_cons | apply Forall2_nil
                | apply Forall_cons_2 | apply Forall_nil_2 | reflexivity | exact I | lia ]).

Lemma project_wf : wf project.
Proof.
  unfold project, body_sprite, mouth, chat.
  repeat (first [ apply wf_node; [check_obj | cbn; lia | ]
                | apply Forall_cons_2 | apply Forall_nil_2 ]).
Defined.

Lemma savePrj_loadPrj_witness : loadPrj 3 (savePrj (Some project)) = Ret project.
Proof.
  apply (savePrj_loadPrj project 3).
  - exact project_wf.
  - vm_compute. lia.
Defined.

Lemma loadPrj_falls_back_witness :
  loadPrj 0 None = Ret (mkNode newRoot []) /\
  loadPrj 0 (Some (le_ser_u32 1 ++ le_ser_str "Root")) = Ret (mkNode newRoot []).
Proof.
  destruct (@loadPrj_falls_back studio le_codec) as [Hnone Hver].
  split; [apply Hnone|].
  apply (Hver 0%nat _ 1 (le_ser_str "Root")); [reflexivity|discriminate].
Defined.

End PrjFacts.

(** ** Facts about [App::addNode] *)

Module AppFacts.
Import Factory UndoManager App.

Lemma fresh_exception_dead (m : gmap N string) : m !! stdpp.base.fresh (dom m) = None.
Proof. apply not_elem_of_dom. apply is_fresh. Qed.

(** The handler leaves the world, the undo stacks, the dialog and the live
    exception objects as they were; the closure it queues refers to an
    exception object that is no longer alive. *)
Lemma handler_spec what app :
  let e := stdpp.base.fresh (dom (exceptions app)) in
  let app' := handler what app in
  world app' = world app /\ undo app' = undo app /\ dialog app' = dialog app /\
  exceptions app' = exceptions app /\
  postponedActions app' = postponedActions app ++ [ShowError e] /\
  call (ShowError e) app' = Undef DanglingRef.
Proof.
  cbn zeta. unfold handler, call. cbn [world undo dialog exceptions postponedActions].
  pose proof (fresh_exception_dead (exceptions app)) as Hdead.
  rewrite delete_insert_id by done. rewrite Hdead.
  repeat (split; [reflexivity|]). reflexivity.
Qed.

(** The addresses of the nodes of a tree. *)
Fixpoint addrs (t : Tree) : list N :=
  match t with
  | TNode a _ ns => a :: concat (map addrs ns)
  end.

Lemma Tree_nested_ind (P : Tree -> Prop) :
  (forall a o ns, Forall P ns -> P (TNode a o ns)) -> forall t, P t.
Proof.
  intros Hnode. fix IH 1. intros [a o ns]. apply Hnode.
  induction ns as [|c ns IHns]; [apply Forall_nil_2|].
  apply Forall_cons_2; [apply IH|apply IHns].
Qed.

Lemma addr_of_del a t : addr_of (del a t) = addr_of t.
Proof. now destruct t. Qed.

Lemma addr_in_addrs t : In (addr_of t) (addrs t).
Proof. destruct t. now left. Qed.

Lemma keep_all a (ns : list Tree) :
  (forall c, In c ns -> addr_of c <> a) ->
  List.filter (fun c => negb (addr_of c =? a)) ns = ns.
Proof.
  induction ns as [|c ns IH]; intros Hne; [done|].
  cbn [List.filter].
  destruct (N.eqb_spec (addr_of c) a) as [Heq|_].
  - exfalso. apply (Hne c); [now left|done].
  - cbn [negb]. f_equal. apply IH. intros c' Hc'. apply Hne. now right.
Qed.

(** Removing a node that was just attached gives the tree back, if its
    address is the address of no other node. *)
Lemma del_addChild p node t :
  ~ In (addr_of node) (addrs t) -> del (addr_of node) (addChild p node t) = t.
Proof.
  induction t as [b o ns IH] using Tree_nested_ind. intros Hfresh.
  cbn [addrs] in Hfresh. cbn [addChild del].
  assert (Hchildren : forall c, In c ns -> ~ In (addr_of node) (addrs c)).
  { intros c Hc Hin. apply Hfresh. right. apply in_concat.
    exists (addrs c). split; [now apply in_map|done]. }
  f_equal. rewrite map_app, List.filter_app.
  assert (Hmap : map (del (addr_of node)) (map (addChild p node) ns) = ns).
  { clear Hfresh. induction IH as [|c ns Hc _ IHns]; [done|].
    cbn [map]. rewrite Hc by (apply Hchildren; now left).
    f_equal. apply IHns. intros c' Hc'. apply Hchildren. now right. }
  rewrite Hmap, keep_all.
  - destruct (b =? p); [|now rewrite app_nil_r].
    cbn [map List.filter]. rewrite addr_of_del, N.eqb_refl. cbn [negb].
    now rewrite app_nil_r.
  - intros c Hc Heq. apply (Hchildren c Hc). rewrite <- Heq. apply addr_in_addrs.
Qed.

(** The undo-closure of [addNode] inverts its do-closure as long as the
    selection is the one the do-closure made. *)
Lemma addNode_undo_inverts node p w t :
  root w = Some t -> ~ In (addr_of node) (addrs t) ->
  (w1 ← addNode_do node (Some p) w; addNode_undo (selected w) w1) = Ret w.
Proof.
  intros Hroot Hfresh. destruct w as [r sel]. cbn in Hroot. subst r.
  cbn. now rewrite del_addChild.
Qed.

Section WithCollaborators.
Context `{Collaborators}.

(** When the constructor throws, [addNode] returns: nothing is recorded,
    the tree and the selection are as before, and one closure is queued. *)
Lemma addNode_ctor_throws class_ nm what app :
  ctor class_ nm = Throws what ->
  addNode class_ nm app = Ret (handler what app).
Proof. intros Hctor. unfold addNode, addNode_try. now rewrite Hctor. Qed.

End WithCollaborators.

(** *** A scene *)

Definition bouncer_obj : Obj :=
  {| kind := Bouncer2; name := "bouncer"; own := []; sprite := [];
     base := [VWord 0; VWord 0; VWord 0] |}.

Definition a_node : Tree := TNode 2 (Prj.obj_of PrjFacts.chat) [].
Definition b_node : Tree := TNode 3 bouncer_obj [].

Definition scene (nodes : list Tree) (sel : option N) : World :=
  {| root := Some (TNode 1 (@newRoot PrjFacts.studio) nodes); selected := sel |}.

Definition studio_app : App :=
  {| world := scene [a_node] None;
     undo := {| done := []; undone := [] |};
     dialog := None;
     postponedActions := [];
     exceptions := ∅;
     next_addr := 3 |}.

(** C4 on the code.  The constructor of a sprite class throws for a file
    that cannot be loaded.  [addNode] returns; no action is recorded, the
    tree, the selection and the dialog are as before, and one closure is
    queued.  When the queue is run at the end of [renderUi], the closure
    reads [e.what()] through its reference to the exception object, which
    was destroyed when the handler was left: no message dialog is shown by
    defined behaviour. *)
Theorem addNode_error_closure_dangles :
  @ctor PrjFacts.studio "Mouth" "pics/missing.png" = Throws "cannot load the texture" /\
  exists app1 e,
    @addNode PrjFacts.studio "Mouth" "pics/missing.png" studio_app = Ret app1 /\
    undo app1 = undo studio_app /\
    world app1 = world studio_app /\
    dialog app1 = None /\
    postponedActions app1 = [ShowError e] /\
    exceptions app1 !! e = None /\
    flush app1 = Undef DanglingRef.
Proof.
  split; [reflexivity|].
  exists (handler "cannot load the texture" studio_app),
         (stdpp.base.fresh (dom (exceptions studio_app))).
  split; [now apply addNode_ctor_throws|].
  destruct (handler_spec "cannot load the texture" studio_app)
    as (Hw & Hu & Hd & He & Hp & Hcall).
  split; [done|]. split; [done|]. split; [done|]. split; [done|].
  split; [rewrite He; apply fresh_exception_dead|].
  unfold flush. rewrite Hp.
  change (postponedActions studio_app ++ [?a]) with [a].
  cbn [call_all]. now rewrite Hcall.
Qed.

(** C5 on the code.  In a scene with the node [a] under the root and nothing
    selected, [addNode] attaches [b] and selects it.  Its undo-closure
    restores the scene if it runs while [b] is still selected.  If [a] is
    selected when it runs, it removes [a] and leaves [b] attached.  After
    [Node::del(&selected)] (the Delete key), which is not recorded, the
    closure is the top of the done-stack and dereferences [nullptr]. *)
Theorem addNode_undo_follows_selection :
  exists app1 act,
    @addNode PrjFacts.studio "Bouncer2" "bouncer" studio_app = Ret app1 /\
    done (undo app1) = [act] /\
    world app1 = scene [a_node; b_node] (Some 3) /\
    undoFn act (world app1) = Ret (scene [a_node] None) /\
    undoFn act (scene [a_node; b_node] (Some 2)) = Ret (scene [b_node] None) /\
    del_selected (world app1) = scene [a_node] None /\
    UndoManager.undo (undo app1) (del_selected (world app1)) = Undef NullDeref.
Proof.
  eexists. eexists. split; [reflexivity|]. cbn.
  split; [reflexivity|]. repeat split.
Qed.

End AppFacts.

(** ** Facts about what is said for a message *)

Module ChatTextFacts.
Import ChatText.

Lemma chars_text_of l : chars (text_of l) = l.
Proof. apply list_ascii_of_string_of_list_ascii. Qed.

Lemma unscore_not_underscore ch : unscore ch <> "_"%char.
Proof.
  unfold unscore. destruct (Ascii.eqb_spec ch "_"%char) as [->|Hne]; [discriminate|done].
Qed.

Lemma unscore_id ch : ch <> "_"%char -> unscore ch = ch.
Proof. intros Hne. unfold unscore. now destruct (Ascii.eqb_spec ch "_"%char). Qed.

Lemma map_unscore_id l :
  Forall (fun ch => ch <> "_"%char) l -> map unscore l = l.
Proof.
  induction 1 as [|ch l Hch _ IH]; [done|]. cbn [map]. now rewrite unscore_id, IH.
Qed.

Lemma seven_bit_in_domain ch : seven_bit ch = true -> in_domain ch = true.
Proof. unfold in_domain. now intros ->. Qed.

Lemma isdigit_in_domain ch : isdigit ch = true -> in_domain ch = true.
Proof.
  unfold isdigit. intros Hd. apply andb_prop in Hd as [_ Hd].
  apply Nat.leb_le in Hd. apply seven_bit_in_domain. apply Nat.ltb_lt. lia.
Qed.

(** Where the loop stops. *)
Definition stops_at (rest : list ascii) : Prop :=
  match rest with
  | [] => True
  | ch :: _ => in_domain ch = true /\ isdigit ch = false
  end.

Lemma drop_digits_stopped rest : stops_at rest -> drop_digits rest = Ret rest.
Proof.
  destruct rest as [|ch rest]; [done|]. intros [Hdom Hd].
  cbn [drop_digits]. now rewrite Hdom, Hd.
Qed.

(** The loop removes digits only; it stops at the end of the text or in
    front of a character that is no digit, and it is undefined in front of
    a character outside the domain of [isdigit]. *)
Lemma drop_digits_spec l :
  exists digits rest,
    l = digits ++ rest /\ Forall (fun ch => isdigit ch = true) digits /\
    match rest with
    | ch :: _ =>
        if in_domain ch then isdigit ch = false /\ drop_digits l = Ret rest
        else drop_digits l = Undef OutOfRange
    | [] => drop_digits l = Ret []
    end.
Proof.
  induction l as [|ch l (digits & rest & Hl & Hd & Hrun)]; [now exists [], []|].
  cbn [drop_digits]. destruct (in_domain ch) eqn:Edom; cbn [negb].
  - destruct (isdigit ch) eqn:E.
    + exists (ch :: digits), rest. split; [cbn; now f_equal|].
      split; [now apply Forall_cons_2|exact Hrun].
    + exists [], (ch :: l). split; [done|]. split; [apply Forall_nil_2|].
      now rewrite Edom.
  - exists [], (ch :: l). split; [done|]. split; [apply Forall_nil_2|].
    now rewrite Edom.
Qed.

Lemma Forall_rev_digits (digits : list ascii) :
  Forall (fun ch => isdigit ch = true) digits ->
  Forall (fun ch => isdigit ch = true) (rev digits).
Proof.
  intros Hd. apply Forall_forall. intros ch Hin. rewrite Forall_forall in Hd.
  apply Hd. apply list_elem_of_In. apply list_elem_of_In in Hin. now apply in_rev.
Qed.

(** A text that holds 7-bit characters only. *)
Definition plain (value : string) : bool := forallb seven_bit (chars value).

Lemma unscore_in_domain ch : in_domain ch = true -> in_domain (unscore ch) = true.
Proof. unfold unscore. now destruct (Ascii.eqb ch "_"%char). Qed.

Lemma drop_digits_plain l :
  forallb in_domain l = true -> exists rest, drop_digits l = Ret rest.
Proof.
  induction l as [|ch l IH]; [now exists []|].
  cbn [forallb drop_digits]. intros Hl. apply andb_prop in Hl as [Hch Hl].
  rewrite Hch. cbn [negb]. destruct (isdigit ch); [now apply IH|eauto].
Qed.

Lemma escName_returns value : plain value = true -> exists out, escName value = Ret out.
Proof.
  intros Hplain. unfold escName.
  destruct (drop_digits_plain (rev (map unscore (chars value)))) as [rest ->]; [|eauto].
  apply forallb_forall. intros ch Hin. apply in_rev, in_map_iff in Hin as (c & <- & Hc).
  unfold plain in Hplain. rewrite forallb_forall in Hplain.
  now apply unscore_in_domain, seven_bit_in_domain, Hplain.
Qed.

Lemma in_domain_bytes ch :
  in_domain ch = false <-> (128 <= nat_of_ascii ch <= 254)%nat.
Proof.
  unfold in_domain, seven_bit. pose proof (nat_ascii_bounded ch).
  destruct (Nat.ltb_spec (nat_of_ascii ch) 128), (Nat.eqb_spec (nat_of_ascii ch) 255);
    cbn [orb]; split; try done; lia.
Qed.

(** [escName].  When it returns, the result has no underscore and does not
    end in a digit; it is the name with every underscore turned into a
    space, up to digits cut off at the end; and a second pass leaves it as
    it is.  It returns on every name of 7-bit characters.  Otherwise it can
    only be undefined, and it is exactly when the last character of the
    name that is no digit is outside the domain of [isdigit]: a byte from
    128 to 254. *)
Theorem escName_spec (value : string) :
  (forall out, escName value = Ret out ->
     Forall (fun ch => ch <> "_"%char) (chars out) /\
     match rev (chars out) with
     | [] => True
     | ch :: _ => isdigit ch = false
     end /\
     (exists digits, Forall (fun ch => isdigit ch = true) digits /\
        map unscore (chars value) = chars out ++ digits) /\
     escName out = Ret out) /\
  (plain value = true -> exists out, escName value = Ret out) /\
  ((exists out, escName value = Ret out) \/ escName value = Undef OutOfRange) /\
  (escName value = Undef OutOfRange <->
   exists front ch digits,
     map unscore (chars value) = front ++ ch :: digits /\
     Forall (fun ch => isdigit ch = true) digits /\
     (128 <= nat_of_ascii ch <= 254)%nat).
Proof.
  setoid_rewrite <- in_domain_bytes.
  unfold escName.
  destruct (drop_digits_spec (rev (map unscore (chars value))))
    as (digits & rest & Hl & Hd & Hrun).
  assert (Hvalue : map unscore (chars value) = rev rest ++ rev digits).
  { rewrite <- rev_app_distr, <- Hl. now rewrite rev_involutive. }
  pose proof (Forall_rev_digits digits Hd) as Hd'.
  assert (Hno : Forall (fun ch => ch <> "_"%char) (rev rest)).
  { apply Forall_forall. intros ch Hin. apply list_elem_of_In in Hin.
    assert (Hin' : In ch (map unscore (chars value))).
    { rewrite Hvalue. apply in_or_app. now left. }
    apply in_map_iff in Hin' as (c & <- & _). apply unscore_not_underscore. }
  assert (Hreturned : stops_at rest ->
    Forall (fun ch => ch <> "_"%char) (chars (text_of (rev rest))) /\
    match rev (chars (text_of (rev rest))) with
    | [] => True
    | ch :: _ => isdigit ch = false
    end /\
    (exists digits0, Forall (fun ch => isdigit ch = true) digits0 /\
       map unscore (chars value) = chars (text_of (rev rest)) ++ digits0) /\
    (left_ ← drop_digits (rev (map unscore (chars (text_of (rev rest)))));
     Ret (text_of (rev left_))) = Ret (text_of (rev rest))).
  { intros Hstop. rewrite !chars_text_of, rev_involutive.
    split; [exact Hno|]. split; [destruct rest; [done|apply Hstop]|].
    split; [now exists (rev digits)|].
    rewrite map_unscore_id by exact Hno.
    now rewrite rev_involutive, drop_digits_stopped. }
  assert (Hsplit : forall front ch digits0,
    map unscore (chars value) = front ++ ch :: digits0 ->
    Forall (fun ch => isdigit ch = true) digits0 -> in_domain ch = false ->
    stops_at rest -> False).
  { intros front ch digits0 Hv Hd0 Hch Hstop.
    assert (Hrev : digits ++ rest = rev digits0 ++ ch :: rev front).
    { rewrite <- Hl, Hv, rev_app_distr. cbn [rev]. now rewrite <- app_assoc. }
    clear Hl Hvalue Hd' Hno Hreturned Hrun Hv.
    apply Forall_rev_digits in Hd0.
    revert digits Hd Hrev. induction Hd0 as [|d ds Hd1 _ IH]; intros digits Hd Hrev.
    - destruct digits as [|x digits]; cbn in Hrev.
      + subst rest. destruct Hstop as [Hdom _]. congruence.
      + injection Hrev as -> _. apply Forall_cons_1 in Hd as [Hx _].
        apply isdigit_in_domain in Hx. congruence.
    - destruct digits as [|x digits]; cbn in Hrev.
      + subst rest. destruct Hstop as [_ Hnd]. congruence.
      + injection Hrev as -> Hrev. apply Forall_cons_1 in Hd as [_ Hd].
        now apply (IH digits). }
  destruct rest as [|ch rest].
  - rewrite Hrun. cbn [mbind outcome_mbind outcome_bind].
    split; [intros out [= <-]; now apply Hreturned|].
    split; [eauto|]. split; [left; eauto|].
    split; [discriminate|]. intros (front & c & digits0 & Hv & Hd0 & Hc).
    exfalso. now apply (Hsplit front c digits0).
  - destruct (in_domain ch) eqn:Edom.
    + destruct Hrun as [Hnd Hrun]. rewrite Hrun.
      cbn [mbind outcome_mbind outcome_bind].
      split; [intros out [= <-]; now apply Hreturned|].
      split; [eauto|]. split; [left; eauto|].
      split; [discriminate|]. intros (front & c & digits0 & Hv & Hd0 & Hc).
      exfalso. now apply (Hsplit front c digits0).
    + rewrite Hrun. cbn [mbind outcome_mbind outcome_bind].
      split; [discriminate|]. split; [|split; [now right|]].
      * intros Hplain. exfalso. unfold plain in Hplain.
        rewrite forallb_forall in Hplain.
        assert (Hin : In ch (map unscore (chars value))).
        { rewrite Hvalue. apply in_or_app. left. apply in_rev.
          rewrite rev_involutive. now left. }
        apply in_map_iff in Hin as (c & <- & Hc).
        apply Hplain, seven_bit_in_domain, unscore_in_domain in Hc. congruence.
      * split; [intros _|done].
        exists (rev rest), ch, (rev digits). split; [|done].
        rewrite Hvalue. cbn [rev]. now rewrite <- app_assoc.
Qed.

(** The names [wichit_42] and [mika_314]; a name that ends in the byte 255,
    which is [EOF] as a [char]; and one that ends in the byte 169 and a
    digit. *)
Lemma escName_spec_witness :
  escName "wichit_42" = Ret "wichit "%string /\
  (exists out, escName "mika_314" = Ret out) /\
  escName (String "a" (String (ascii_of_nat 255) EmptyString))
    = Ret (String "a" (String (ascii_of_nat 255) EmptyString)) /\
  escName (String "a" (String (ascii_of_nat 169) (String "7" EmptyString)))
    = Undef OutOfRange.
Proof.
  split; [reflexivity|]. split; [|split].
  - apply (escName_spec "mika_314"). reflexivity.
  - reflexivity.
  - apply (escName_spec (String "a" (String (ascii_of_nat 169) (String "7" EmptyString)))).
    exists ["a"%char], (ascii_of_nat 169), ["7"%char].
    split; [reflexivity|]. split; [|vm_compute; split; apply Nat.leb_le; reflexivity].
    apply Forall_cons_2; [reflexivity|apply Forall_nil_2].
Defined.

End ChatTextFacts.

(** ** Facts about the chat: messages, speech and the voice mapping *)

Module ChatTtsFacts.
Import ChatText ChatTts.

Section WithFloat.
Context `{FloatOps}.

(** [getVoice] reads the map and the list of voices only. *)
Lemma getVoice_show hash (c : Chat.Chat) n :
  Chat.getVoice hash (show c) n = Chat.getVoice hash c n.
Proof. reflexivity. Qed.

Lemma getVoice_returns hash (c : Chat.Chat) n :
  Chat.voices c <> [] -> exists v, Chat.getVoice hash c n = Ret v.
Proof.
  intros Hne. unfold Chat.getVoice.
  destruct (Chat.voicesMap c !! n) as [v|]; [now exists v|].
  assert (Hlen : N.of_nat (length (Chat.voices c)) <> 0).
  { destruct (Chat.voices c); [done|cbn; lia]. }
  destruct (N.eqb_spec (N.of_nat (length (Chat.voices c))) 0) as [|_]; [done|].
  assert (Hidx : (N.to_nat (N.lxor (u64 (hash n)) 1 mod N.of_nat (length (Chat.voices c)))
                  < length (Chat.voices c))%nat).
  { pose proof (N.mod_lt (N.lxor (u64 (hash n)) 1) _ Hlen). lia. }
  destruct (lookup_lt_is_Some_2 _ _ Hidx) as [v Hv]. exists v. now rewrite Hv.
Qed.

Lemma dedup_returns text :
  Dedup.size (Dedup.split text) < 2 ^ 32 ->
  exists out, Dedup.dedup (Dedup.fuel_for (length (Dedup.split text))) text = Ret out.
Proof.
  intros Hsz.
  destruct (DedupFacts.outer_ok (Dedup.fuel_for (length (Dedup.split text))) (Dedup.split text))
    as (words' & Hrun & _); [done|unfold Dedup.fuel_for; lia|].
  exists (Dedup.join words'). unfold Dedup.dedup. now rewrite Hrun.
Qed.

(** The run of [onMsg] with text-to-speech, from the results of its
    callees. *)
Lemma onMsg_run (hash : string -> N) (val : Chat.Msg) (s : Speaker)
    (voice prefix deduped : string) :
  azureTts s = true ->
  Chat.getVoice hash (chat s) (Chat.displayName val) = Ret voice ->
  name_prefix (lastName s) (Chat.displayName val) (Chat.msg val) = Ret prefix ->
  Dedup.dedup (Dedup.fuel_for (length (Dedup.split (Chat.msg val)))) (Chat.msg val)
    = Ret deduped ->
  onMsg hash val s =
    Ret {| chat := push_msg val (show (chat s)); azureTts := true;
           lastName := Chat.displayName val;
           said := said s ++ [(voice, prefix +:+ deduped)];
           timer := Some 30000 |}.
Proof.
  intros Etts Hv Hp Hd.
  unfold onMsg. cbn [azureTts chat lastName said timer].
  rewrite Etts, getVoice_show, Hv. cbn [mbind outcome_mbind outcome_bind].
  rewrite Hp. cbn [mbind outcome_mbind outcome_bind].
  rewrite Hd. reflexivity.
Qed.

Lemma name_prefix_same (name text : string) : name_prefix name name text = Ret EmptyString.
Proof. unfold name_prefix. now rewrite String.eqb_refl. Qed.

Lemma name_prefix_other (last name text esc : string) :
  escName name = Ret esc ->
  name_prefix last name text =
  Ret (if String.eqb last name then EmptyString
       else esc +:+ " " +:+ getDialogLine text false +:+ " ").
Proof.
  intros Hesc. unfold name_prefix. cbn [negb]. rewrite andb_true_r.
  destruct (String.eqb last name); [reflexivity|].
  cbn [negb]. now rewrite Hesc.
Qed.

(** [onMsg], when it returns, has appended the message to [msgs], shown the
    overlay and started the timer for 30 seconds; the voices and their
    mapping are as before; with text-to-speech on, one utterance was said
    and the sender is the last name, and without it nothing was said and the
    last name is as before. *)
Theorem onMsg_appends (hash : string -> N) (val : Chat.Msg) (s s' : Speaker) :
  onMsg hash val s = Ret s' ->
  Chat.msgs (chat s') = Chat.msgs (chat s) ++ [val] /\
  Chat.showChat (chat s') = true /\
  timer s' = Some 30000 /\
  Chat.voicesMap (chat s') = Chat.voicesMap (chat s) /\
  Chat.voices (chat s') = Chat.voices (chat s) /\
  azureTts s' = azureTts s /\
  (if azureTts s
   then (exists voice text, said s' = said s ++ [(voice, text)]) /\
        lastName s' = Chat.displayName val
   else said s' = said s /\ lastName s' = lastName s).
Proof.
  unfold onMsg. cbn [azureTts chat lastName said timer].
  destruct (azureTts s) eqn:Etts.
  - rewrite getVoice_show.
    destruct (Chat.getVoice hash (chat s) (Chat.displayName val)) as [voice| | |];
      cbn [mbind outcome_mbind outcome_bind]; try discriminate.
    destruct (name_prefix _ _ _) as [prefix| | |];
      cbn [mbind outcome_mbind outcome_bind]; try discriminate.
    destruct (Dedup.dedup _ (Chat.msg val)) as [deduped| | |];
      cbn [mbind outcome_mbind outcome_bind]; try discriminate.
    intros [= <-]. cbn. repeat split. eauto.
  - cbn [mbind outcome_mbind outcome_bind]. intros [= <-]. cbn. done.
Qed.

(** With text-to-speech on, a voice in the list, a name of 7-bit characters
    and a text of fewer than [2^32] words, [onMsg] returns, and what it says
    is the voice of the sender and the text without its repetitions, with
    the name and the dialog line in front unless the sender is the last
    name. *)
Theorem onMsg_says (hash : string -> N) (val : Chat.Msg) (s : Speaker) :
  azureTts s = true ->
  Chat.voices (chat s) <> [] ->
  ChatTextFacts.plain (Chat.displayName val) = true ->
  Dedup.size (Dedup.split (Chat.msg val)) < 2 ^ 32 ->
  exists voice esc deduped s',
    Chat.getVoice hash (chat s) (Chat.displayName val) = Ret voice /\
    escName (Chat.displayName val) = Ret esc /\
    Dedup.dedup (Dedup.fuel_for (length (Dedup.split (Chat.msg val)))) (Chat.msg val)
      = Ret deduped /\
    onMsg hash val s = Ret s' /\
    said s' = said s ++
      [(voice,
        (if String.eqb (lastName s) (Chat.displayName val) then EmptyString
         else esc +:+ " " +:+ getDialogLine (Chat.msg val) false +:+ " ") +:+ deduped)] /\
    lastName s' = Chat.displayName val.
Proof.
  intros Etts Hvoices Hplain Hsz.
  destruct (getVoice_returns hash (chat s) (Chat.displayName val) Hvoices) as [voice Hv].
  destruct (ChatTextFacts.escName_returns (Chat.displayName val) Hplain) as [esc Hesc].
  destruct (dedup_returns (Chat.msg val) Hsz) as [deduped Hd].
  pose proof (name_prefix_other (lastName s) _ (Chat.msg val) esc Hesc) as Hp.
  pose proof (onMsg_run hash val s voice _ deduped Etts Hv Hp Hd) as Hrun.
  exists voice, esc, deduped. eexists.
  split; [exact Hv|]. split; [exact Hesc|]. split; [exact Hd|].
  split; [exact Hrun|]. split; reflexivity.
Qed.

(** Two messages in a row of the same sender: if [onMsg] returned for the
    first, it returns for the second; both are appended, and for the second
    one only the text, without its repetitions, is said, in the same
    voice. *)
Theorem onMsg_twice_same_sender (hash : string -> N) (val1 val2 : Chat.Msg)
    (s s1 : Speaker) :
  azureTts s = true ->
  onMsg hash val1 s = Ret s1 ->
  Chat.displayName val2 = Chat.displayName val1 ->
  Dedup.size (Dedup.split (Chat.msg val2)) < 2 ^ 32 ->
  exists s2 voice deduped,
    Chat.getVoice hash (chat s) (Chat.displayName val1) = Ret voice /\
    Dedup.dedup (Dedup.fuel_for (length (Dedup.split (Chat.msg val2)))) (Chat.msg val2)
      = Ret deduped /\
    onMsg hash val2 s1 = Ret s2 /\
    said s2 = said s1 ++ [(voice, deduped)] /\
    Chat.msgs (chat s2) = Chat.msgs (chat s) ++ [val1; val2].
Proof.
  intros Etts Hrun1 Hsame Hsz2.
  destruct (dedup_returns (Chat.msg val2) Hsz2) as [d2 Hd2].
  revert Hrun1. unfold onMsg at 1. cbn [azureTts chat lastName said timer].
  rewrite Etts, getVoice_show.
  destruct (Chat.getVoice hash (chat s) (Chat.displayName val1)) as [voice| | |] eqn:Hv;
    cbn [mbind outcome_mbind outcome_bind]; try discriminate.
  destruct (name_prefix _ _ _) as [prefix| | |];
    cbn [mbind outcome_mbind outcome_bind]; try discriminate.
  destruct (Dedup.dedup _ (Chat.msg val1)) as [d1| | |];
    cbn [mbind outcome_mbind outcome_bind]; try discriminate.
  intros [= <-].
  match goal with |- context [onMsg hash val2 ?s1'] => set (s1 := s1') end.
  assert (Hv2 : Chat.getVoice hash (chat s1) (Chat.displayName val2) = Ret voice)
    by (rewrite Hsame; exact Hv).
  assert (Hp2 : name_prefix (lastName s1) (Chat.displayName val2) (Chat.msg val2)
                = Ret EmptyString)
    by (subst s1; cbn [lastName with_chat]; rewrite Hsame; apply name_prefix_same).
  pose proof (onMsg_run hash val2 s1 voice EmptyString d2 eq_refl Hv2 Hp2 Hd2) as Hrun2.
  eexists. exists voice, d2. split; [reflexivity|]. split; [exact Hd2|].
  split; [exact Hrun2|].
  cbn. split; [reflexivity|]. now rewrite <- app_assoc.
Qed.

(** With text-to-speech on, no voice in the list yet and no voice mapped to
    the sender, [onMsg] takes a remainder by zero in [getVoice]. *)
Theorem onMsg_before_voices (hash : string -> N) (val : Chat.Msg) (s : Speaker) :
  azureTts s = true ->
  Chat.voices (chat s) = [] ->
  Chat.voicesMap (chat s) !! Chat.displayName val = None ->
  onMsg hash val s = Undef DivByZero.
Proof.
  intros Etts Hnil Hnone. unfold onMsg. cbn [azureTts chat lastName said timer].
  rewrite Etts, getVoice_show. unfold Chat.getVoice. now rewrite Hnone, Hnil.
Qed.

(** The buttons of the voice mapping and [getVoice].  After [Add] with a
    voice chosen, [getVoice] returns that voice for the name, also when the
    list of voices is empty.  After [Del], or [Add] with no voice chosen, the
    name has no entry.  The voice of every other name is as before. *)
Theorem voiceButtons_getVoice (hash : string -> N) (add del : bool)
    (chatterName chatterVoice : string) (c : Chat.Chat) :
  (add = true -> del = false -> chatterVoice <> EmptyString ->
   Chat.getVoice hash (voiceButtons add del chatterName chatterVoice c) chatterName
     = Ret chatterVoice) /\
  (del = true \/ (add = true /\ chatterVoice = EmptyString) ->
   Chat.voicesMap (voiceButtons add del chatterName chatterVoice c) !! chatterName = None) /\
  (forall n, n <> chatterName ->
   Chat.getVoice hash (voiceButtons add del chatterName chatterVoice c) n
     = Chat.getVoice hash c n).
Proof.
  split; [|split].
  - intros -> -> Hv. unfold voiceButtons, Chat.getVoice.
    destruct (String.eqb_spec chatterVoice EmptyString); [done|].
    cbn. now rewrite lookup_insert_eq.
  - intros Hcase. unfold voiceButtons. cbn [set_voicesMap Chat.voicesMap].
    destruct del.
    + apply lookup_delete_eq.
    + destruct Hcase as [Hcase|[-> ->]]; [done|]. cbn. apply lookup_delete_eq.
  - intros n Hne. unfold voiceButtons, Chat.getVoice.
    cbn [set_voicesMap Chat.voicesMap Chat.voices].
    assert (Hsame : forall m : gmap string string,
              (if del then delete chatterName m else m) !! n = m !! n).
    { intros m. destruct del; [|done]. now rewrite lookup_delete_ne. }
    rewrite Hsame.
    destruct add; [|done].
    destruct (negb (String.eqb chatterVoice EmptyString)).
    + now rewrite lookup_insert_ne.
    + now rewrite lookup_delete_ne.
Qed.

End WithFloat.

#[local] Existing Instance RenderFacts.exact_floats.

(** A chat of the stream: two voices listed, none mapped, speech on. *)
Definition greeting : Chat.Msg :=
  {| Chat.displayName := "wichit_42"; Chat.msg := "hi hi hi hi all";
     Chat.color := (inject_Z 0, inject_Z 1, inject_Z 0) |}.

Definition question : Chat.Msg :=
  {| Chat.displayName := "wichit_42"; Chat.msg := "what is this?";
     Chat.color := (inject_Z 0, inject_Z 1, inject_Z 0) |}.

Definition stream_chat (voices : list string) : Chat.Chat :=
  {| Chat.voicesMap := ∅;
     Chat.voices := voices;
     Chat.showChat := false;
     Chat.msgs := [];
     Chat.size_x := inject_Z 40; Chat.size_y := inject_Z 100;
     Chat.font_getSize := fun text =>
       (inject_Z (Z.of_nat (String.length text) * 8), inject_Z 16) |}.

Definition speaker (voices : list string) : Speaker :=
  {| chat := stream_chat voices; azureTts := true; lastName := "";
     said := []; timer := None |}.

Definition two_voices : list string := ["en-US-Guy"; "en-GB-Ryan"]%string.

Lemma onMsg_appends_witness :
  exists s', onMsg RenderFacts.length_hash greeting (speaker two_voices) = Ret s' /\
             Chat.msgs (chat s') = [greeting] /\
             said s' = [("en-US-Guy", "wichit  said: hi all")]%string.
Proof.
  eexists. split; [vm_compute; reflexivity|].
  split; [|vm_compute; reflexivity].
  eapply (onMsg_appends RenderFacts.length_hash greeting (speaker two_voices)).
  vm_compute. reflexivity.
Defined.

Lemma onMsg_says_witness :
  exists voice deduped s',
    onMsg RenderFacts.length_hash greeting (speaker two_voices) = Ret s' /\
    said s' = [(voice, ("wichit  said: " +:+ deduped)%string)].
Proof.
  destruct (onMsg_says RenderFacts.length_hash greeting (speaker two_voices))
    as (voice & esc & deduped & s' & _ & Hesc & _ & Hrun & Hsaid & _).
  - reflexivity.
  - discriminate.
  - reflexivity.
  - vm_compute. reflexivity.
  - exists voice, deduped, s'. split; [exact Hrun|].
    rewrite Hsaid. injection Hesc as <-. reflexivity.
Defined.

Definition after_greeting : Speaker :=
  {| chat := push_msg greeting (show (stream_chat two_voices)); azureTts := true;
     lastName := "wichit_42";
     said := [("en-US-Guy", "wichit  said: hi all")]%string;
     timer := Some 30000 |}.

Lemma onMsg_twice_same_sender_witness :
  exists s2,
    onMsg RenderFacts.length_hash question after_greeting = Ret s2 /\
    said s2 = said after_greeting ++ [("en-US-Guy", "what is this?")]%string.
Proof.
  destruct (onMsg_twice_same_sender RenderFacts.length_hash greeting question
              (speaker two_voices) after_greeting)
    as (s2 & voice & deduped & Hv & Hd & Hrun2 & Hsaid & _).
  - reflexivity.
  - vm_compute. reflexivity.
  - reflexivity.
  - vm_compute. reflexivity.
  - exists s2. split; [exact Hrun2|].
    rewrite Hsaid. vm_compute in Hv. vm_compute in Hd.
    injection Hv as <-. injection Hd as <-. reflexivity.
Defined.

Lemma onMsg_before_voices_witness :
  onMsg RenderFacts.length_hash greeting (speaker []) = Undef DivByZero.
Proof.
  apply (onMsg_before_voices RenderFacts.length_hash greeting (speaker []));
    reflexivity.
Defined.

Lemma voiceButtons_getVoice_witness :
  Chat.getVoice RenderFacts.length_hash
    (voiceButtons true false "wichit_42" "en-US-Aria" (stream_chat [])) "wichit_42"
  = Ret "en-US-Aria"%string.
Proof.
  apply (voiceButtons_getVoice RenderFacts.length_hash true false "wichit_42"
           "en-US-Aria" (stream_chat [])); [reflexivity|reflexivity|discriminate].
Defined.

End ChatTtsFacts.

(** ** More facts about [dedup] and [eq] *)

Module DedupOrderFacts.
Import Dedup DedupFacts.

Lemma copies_length k (blk : list string) :
  length (copies k blk) = (k * length blk)%nat.
Proof.
  unfold copies. induction k as [|k IH]; [done|].
  cbn [replicate concat]. rewrite length_app, IH. lia.
Qed.

Lemma copies_cons k (blk : list string) : copies (S k) blk = blk ++ copies k blk.
Proof. reflexivity. Qed.

(** What one collapse keeps. *)
Lemma collapse_keeps words words' :
  collapse words words' ->
  words' `sublist_of` words /\
  (length words' + 2 <= length words)%nat /\
  head words' = head words /\
  last words' = last words.
Proof.
  intros (pre & blk & post & k & Hblk & Hk & -> & ->).
  destruct k as [|k]; [lia|].
  assert (Hlen : (1 <= length blk)%nat) by (destruct blk; [done|cbn; lia]).
  split; [|split; [|split]].
  - apply sublist_app; [done|]. apply sublist_app; [|done].
    rewrite copies_cons. now apply sublist_inserts_r.
  - rewrite !length_app, copies_length. nia.
  - rewrite !head_app, copies_cons, head_app.
    destruct blk; [done|]. reflexivity.
  - rewrite !last_app, copies_snoc, last_app.
    destruct (last post); [done|].
    destruct (last blk) eqn:E; [done|].
    destruct blk as [|x blk] using rev_ind; [done|]. now rewrite last_snoc in E.
Qed.

Lemma collapses_keep words words' :
  rtc collapse words words' ->
  words' `sublist_of` words /\
  (words' = words \/ (length words' + 2 <= length words)%nat) /\
  head words' = head words /\
  last words' = last words.
Proof.
  induction 1 as [|x y z Hxy _ IH]; [split; [done|]; split; [now left|done]|].
  destruct (collapse_keeps x y Hxy) as (Hs & Hl & Hh & Ht).
  destruct IH as (Hs' & Hl' & Hh' & Ht').
  split; [now transitivity y|]. split; [right; destruct Hl' as [->|]; lia|].
  split; congruence.
Qed.

(** From the words of the input [dedup] only takes words away: the words it
    writes are the words of the input in their order, without some of them;
    if any is taken away, at least two are; the first word and the last word
    of the input are the first and the last of the words written. *)
Theorem dedup_keeps_order (var : string) :
  size (split var) < 2 ^ 32 ->
  exists words',
    dedup (fuel_for (length (split var))) var = Ret (join words') /\
    words' `sublist_of` split var /\
    (words' = split var \/ (length words' + 2 <= length (split var))%nat) /\
    head words' = head (split var) /\
    last words' = last (split var).
Proof.
  intros Hsz.
  destruct (outer_ok (fuel_for (length (split var))) (split var))
    as (words' & Hrun & Hsteps & _); [done|unfold fuel_for; lia|].
  exists words'. split; [unfold dedup; now rewrite Hrun|].
  apply collapses_keep. now apply rtc_pass_collapse.
Qed.

Lemma dedup_keeps_order_witness :
  exists words',
    dedup (fuel_for 6) "so no no no no way" = Ret (join words') /\
    words' `sublist_of` ["so"; "no"; "no"; "no"; "no"; "way"]%string /\
    head words' = Some "so"%string /\
    last words' = Some "way"%string.
Proof.
  destruct (dedup_keeps_order "so no no no no way")
    as (words' & Hrun & Hsub & _ & Hhead & Hlast).
  - vm_compute. reflexivity.
  - exists words'. split; [exact Hrun|]. split; [exact Hsub|].
    split; [exact Hhead|exact Hlast].
Defined.

(** A text of at most three words is returned word by word as it is: with
    three words [words.size() / 2] is [1], and the loop over [w] is not
    entered. *)
Theorem dedup_short_text (var : string) (fuel : nat) :
  (length (split var) <= 3)%nat -> (2 <= fuel)%nat ->
  dedup fuel var = Ret (join (split var)).
Proof.
  intros Hlen Hfuel. unfold dedup.
  destruct fuel as [|[|fuel]]; [lia|lia|].
  cbn [outer wloop].
  assert (Hhalf : size (split var) / 2 < 2).
  { apply N.Div0.div_lt_upper_bound. unfold size. lia. }
  destruct (N.ltb_spec 1 (size (split var) / 2)) as [Hlt|_]; [lia|].
  reflexivity.
Qed.

Lemma dedup_short_text_witness :
  dedup 2 "no no no" = Ret "no no no"%string.
Proof.
  apply (dedup_short_text "no no no" 2); vm_compute; [lia|lia].
Defined.

(** [eq] on indices and a width below [2^32]: it is [true] exactly when both
    blocks lie inside the list and hold the same words; in particular it is
    symmetric in the two indices. *)
Theorem eq_compares_blocks (words : list string) (i j w : N) :
  i < 2 ^ 32 -> j < 2 ^ 32 -> w < 2 ^ 32 ->
  (eq words i j w = true <->
   i + w <= size words /\ j + w <= size words /\
   block words (N.to_nat i) (N.to_nat w) = block words (N.to_nat j) (N.to_nat w)) /\
  eq words i j w = eq words j i w.
Proof.
  intros Hi Hj Hw. split; [now apply eq_true_iff|].
  pose proof (eq_true_iff words i j w Hi Hj Hw) as Hij.
  pose proof (eq_true_iff words j i w Hj Hi Hw) as Hji.
  destruct (eq words i j w) eqn:E1, (eq words j i w) eqn:E2; try done.
  - destruct Hij as [Hij _]. destruct (Hij eq_refl) as (? & ? & ?).
    destruct Hji as [_ Hji]. symmetry. now apply Hji.
  - destruct Hji as [Hji _]. destruct (Hji eq_refl) as (? & ? & ?).
    destruct Hij as [_ Hij]. now apply Hij.
Qed.

Lemma eq_compares_blocks_witness :
  eq ["a"; "b"; "a"; "b"]%string 0 2 2 = true /\
  eq ["a"; "b"; "a"; "b"]%string 0 2 2 = eq ["a"; "b"; "a"; "b"]%string 2 0 2.
Proof.
  destruct (eq_compares_blocks ["a"; "b"; "a"; "b"]%string 0 2 2) as [Hiff Hsym];
    [vm_compute; reflexivity..|].
  split; [|exact Hsym].
  apply Hiff. vm_compute. repeat split; discriminate.
Defined.

End DedupOrderFacts.

(** ** Facts about the layout of the chat overlay *)

Module ChatLayoutFacts.

Section WithFloat.
Context `{FloatOps}.

Definition joined (lines : list string) : string := String.concat " " lines.

Lemma joined_snoc (lines : list string) (line : string) :
  lines <> [] -> joined (lines ++ [line]) = joined lines +:+ " " +:+ line.
Proof.
  intros Hne. induction lines as [|l lines IH]; [done|].
  destruct lines as [|l' lines]; [reflexivity|].
  change (joined ((l :: l' :: lines) ++ [line]))
    with (l +:+ " " +:+ joined ((l' :: lines) ++ [line])).
  rewrite IH by done.
  change (joined (l :: l' :: lines)) with (l +:+ " " +:+ joined (l' :: lines)).
  now rewrite !DedupFacts.append_assoc.
Qed.

Lemma joined_app (a b ws : list string) :
  a <> [] -> b <> [] -> joined a = joined b -> joined (a ++ ws) = joined (b ++ ws).
Proof.
  intros Ha Hb Hab. induction ws as [|x ws IH] using rev_ind; [now rewrite !app_nil_r|].
  rewrite !app_assoc.
  rewrite (joined_snoc (a ++ ws)) by (now destruct a).
  rewrite (joined_snoc (b ++ ws)) by (now destruct b).
  now rewrite IH.
Qed.

Lemma append_nonempty_r (a b : string) : b <> EmptyString -> a +:+ b <> EmptyString.
Proof. intros Hb. destruct a; [exact Hb|discriminate]. Qed.

(** [iss >> word] never delivers an empty word. *)
Lemma tokens_from_nonempty (s : string) : forall cur,
  Forall (fun word => word <> EmptyString) (Chat.tokens_from cur s).
Proof.
  induction s as [|c s IH]; intros cur; cbn [Chat.tokens_from].
  - destruct (String.eqb_spec cur EmptyString); [apply Forall_nil_2|].
    apply Forall_cons_2; [done|apply Forall_nil_2].
  - destruct (Chat.is_space c); [|apply IH].
    destruct (String.eqb_spec cur EmptyString); [apply IH|].
    apply Forall_cons_2; [done|apply IH].
Qed.

(** The loop of [wrapText]: the lines closed so far and the line being
    filled hold the words read so far, and none of them is empty. *)
Lemma wrap_loop (c : Chat.Chat) (ws : list string) :
  Forall (fun word => word <> EmptyString) ws ->
  forall lines line off,
    line <> EmptyString ->
    Forall (fun l => l <> EmptyString) lines ->
    exists lines' line' off',
      fold_left (Chat.wrap_step c) ws (lines, line, off) = (lines', line', off') /\
      line' <> EmptyString /\
      Forall (fun l => l <> EmptyString) lines' /\
      joined (lines' ++ [line']) = joined ((lines ++ [line]) ++ ws).
Proof.
  induction 1 as [|word ws Hword _ IH]; intros lines line off Hline Hlines.
  - exists lines, line, off. now rewrite app_nil_r.
  - cbn [fold_left]. unfold Chat.wrap_step at 2.
    assert (Hsnoc : joined ((lines ++ [line]) ++ [word])
                    = joined (lines ++ [line +:+ " " +:+ word])).
    { destruct lines as [|l lines]; [reflexivity|].
      rewrite joined_snoc by (now destruct lines).
      rewrite !joined_snoc by done.
      now rewrite !DedupFacts.append_assoc. }
    destruct (fgt _ _).
    + destruct (IH (lines ++ [line]) word (f_of_int 0)) as (lines' & line' & off' & Hrun & Hl & Hls & Hj);
        [done|apply Forall_app_2; [done|apply Forall_cons_2; [done|apply Forall_nil_2]]|].
      exists lines', line', off'. split; [done|]. split; [done|]. split; [done|].
      rewrite Hj. now rewrite <- (app_assoc _ [word] ws).
    + destruct (IH lines (line +:+ " " +:+ word) off) as (lines' & line' & off' & Hrun & Hl & Hls & Hj);
        [apply append_nonempty_r; discriminate|done|].
      exists lines', line', off'. split; [done|]. split; [done|]. split; [done|].
      rewrite Hj, (app_assoc _ [word] ws).
      apply joined_app; [now destruct lines..|done].
Qed.

(** [wrapText] only breaks the text into lines: the lines, joined by single
    spaces, are the words of the text joined by single spaces, whatever the
    font measures; and no line is empty. *)
Theorem wrapText_keeps_words (c : Chat.Chat) (text : string) (initOffset : float) :
  joined (Chat.wrapText c text initOffset) = joined (Chat.tokens text) /\
  Forall (fun line => line <> EmptyString) (Chat.wrapText c text initOffset) /\
  (Chat.wrapText c text initOffset = [] <-> Chat.tokens text = []).
Proof.
  unfold Chat.wrapText.
  pose proof (tokens_from_nonempty text EmptyString) as Hws.
  fold (Chat.tokens text) in Hws.
  destruct (Chat.tokens text) as [|word ws]; [done|].
  cbn [hd tl].
  apply Forall_cons_1 in Hws as [Hword Hws].
  destruct (wrap_loop c ws Hws [] word initOffset Hword (Forall_nil_2 _))
    as (lines' & line' & off' & Hrun & Hl & Hls & Hj).
  rewrite Hrun.
  destruct (String.eqb_spec line' EmptyString); [done|].
  split; [exact Hj|]. split.
  - apply Forall_app_2; [done|]. apply Forall_cons_2; [done|apply Forall_nil_2].
  - split; [|done]. now destruct lines'.
Qed.

Definition above (c : Chat.Chat) (e : event) : Prop :=
  match e with
  | FontRender _ y _ => fgt y (Chat.h c) = false
  | _ => True
  end.

Lemma render_lines_above (c : Chat.Chat) m dim lines : forall y,
  Forall (above c) (Chat.render_lines c m dim lines y).1.
Proof.
  induction lines as [|ln rest IH]; intros y; cbn [Chat.render_lines];
    [apply Forall_nil_2|].
  destruct (fgt y (Chat.h c)) eqn:Ey; [apply Forall_nil_2|].
  specialize (IH (fadd y dim.2)).
  destruct (Chat.render_lines c m dim rest (fadd y dim.2)) as [trace y'].
  cbn [fst] in *. apply Forall_app_2; [|done].
  apply Forall_cons_2; [exact Ey|].
  destruct rest; [|apply Forall_nil_2].
  apply Forall_cons_2; [exact I|]. apply Forall_cons_2; [exact Ey|apply Forall_nil_2].
Qed.

Lemma render_msgs_above (c : Chat.Chat) ms : forall y,
  Forall (above c) (Chat.render_msgs c ms y).
Proof.
  induction ms as [|m rest IH]; intros y; cbn [Chat.render_msgs]; [apply Forall_nil_2|].
  pose proof (render_lines_above c m (Chat.font_getSize c (Chat.displayName m))
                (rev (Chat.wrapText c (": " +:+ Chat.msg m)
                        (Chat.font_getSize c (Chat.displayName m)).1)) y) as Hlines.
  destruct (Chat.render_lines _ _ _ _ _) as [trace y'].
  cbn [fst] in Hlines.
  apply Forall_cons_2; [exact I|]. apply Forall_app_2; [done|].
  destruct (fgt y' (Chat.h c)); [apply Forall_nil_2|apply IH].
Qed.

(** [Chat::render] draws no text at a [y] past the height of the node: for
    every call of [font->render] at [y], [y > h()] is false. *)
Theorem render_stays_above_h (c : Chat.Chat) (dt : float) (hovered selected : option N) :
  Forall (above c) (Chat.render c dt hovered selected).
Proof.
  unfold Chat.render. destruct (negb (Chat.showChat c)).
  - apply Forall_cons_2; [exact I|apply Forall_nil_2].
  - apply Forall_app_2; [apply render_msgs_above|].
    apply Forall_cons_2; [exact I|apply Forall_nil_2].
Qed.

End WithFloat.
End ChatLayoutFacts.

(** ** More facts about the sprite *)

Module SpriteFacts.
Import RenderFacts.

Section WithFloat.
Context `{FloatOps}.

Ltac run_pos_divs :=
  repeat (first [ rewrite imod_pos by done
                | rewrite idiv_pos by done
                | rewrite fdiv_int_ret ];
          cbn [mbind outcome_mbind outcome_bind]).

Lemma cast_int_cases x : (exists n, cast_int x = Ret n) \/ cast_int x = Undef IntOverflow.
Proof. unfold cast_int. destruct (f_to_int x); [left; eauto|now right]. Qed.

Lemma int_range_cases z :
  (int_range z = Ret z /\ (int_min <= z < 2 ^ 31)%Z) \/ int_range z = Undef IntOverflow.
Proof.
  unfold int_range.
  destruct (Z.leb_spec int_min z), (Z.ltb_spec z (2 ^ 31)); cbn [andb];
    [left; split; [done|lia]|now right..].
Qed.

Lemma int_range_in z : (int_min <= z < 2 ^ 31)%Z -> int_range z = Ret z.
Proof.
  intros Hz. unfold int_range.
  destruct (Z.leb_spec int_min z), (Z.ltb_spec z (2 ^ 31)); cbn [andb]; [done|lia..].
Qed.

(** [Sprite::render] is defined exactly when its [int] remainder and its
    [int] division are: [cols] is not zero, and [frame] and [cols] are not
    [INT_MIN] and [-1].  [rows] is a float divisor only: [render] returns
    the same sixteen calls for every value of it, and [Sprite::w] and
    [Sprite::h] return on every sprite. *)
Theorem render_defined_iff (s : Sprite.Sprite) (dt : float) (hovered selected : option N) :
  ((exists trace, Sprite.render s dt hovered selected = Ret trace) <->
   Sprite.cols s <> 0%Z /\ ~ (Sprite.frame s = int_min /\ Sprite.cols s = (-1)%Z)) /\
  (forall trace, Sprite.render s dt hovered selected = Ret trace ->
     length trace = 16%nat /\
     head trace = Some (GlEnable "GL_TEXTURE_2D") /\
     last trace = Some (NodeRender dt hovered selected)) /\
  Sprite.w s = Ret (fdiv (fmul (f_of_int 1) (f_of_int (Sprite.tex_w (Sprite.texture s))))
                         (f_of_int (Sprite.cols s))) /\
  Sprite.h s = Ret (fdiv (fmul (f_of_int 1) (f_of_int (Sprite.tex_h (Sprite.texture s))))
                         (f_of_int (Sprite.rows s))).
Proof.
  split; [|split; [|split; reflexivity]].
  - unfold Sprite.render, Sprite.w, Sprite.h, imod, idiv, fdiv_int.
    destruct (Z.eqb_spec (Sprite.cols s) 0) as [Hc|Hc];
      destruct (Z.eqb_spec (Sprite.frame s) int_min) as [Hf|Hf];
      destruct (Z.eqb_spec (Sprite.cols s) (-1)) as [Hm|Hm];
      cbn [andb mbind outcome_mbind outcome_bind];
      split;
      try (intros [? [=]]); try (intros _; eexists; reflexivity);
      try tauto; try lia.
  - unfold Sprite.render, Sprite.w, Sprite.h, imod, idiv, fdiv_int.
    destruct (Z.eqb_spec (Sprite.cols s) 0) as [Hc|Hc]; [discriminate|].
    destruct ((Sprite.frame s =? int_min)%Z && (Sprite.cols s =? -1)%Z);
      [discriminate|].
    cbn [mbind outcome_mbind outcome_bind].
    intros trace [= <-]. split; [reflexivity|]. split; reflexivity.
Qed.

(** On a sprite that keeps the invariant of the detail panel, with a texture
    of four channels whose image data has [w * h * 4] bytes,
    [Sprite::isTransparent] reads inside the image data: it returns, unless
    a conversion to [int] overflows. *)
Theorem isTransparent_reads_inside (s : Sprite.Sprite) (data : list Z) (vx vy : float) :
  Sprite.inv s ->
  Sprite.tex_ch (Sprite.texture s) = 4%Z ->
  Sprite.imageData (Sprite.texture s) = Some data ->
  Z.of_nat (length data)
    = (Sprite.tex_w (Sprite.texture s) * Sprite.tex_h (Sprite.texture s) * 4)%Z ->
  (Sprite.tex_w (Sprite.texture s) * Sprite.tex_h (Sprite.texture s) * 4 < 2 ^ 31)%Z ->
  (exists b, Sprite.isTransparent s vx vy = Ret b) \/
  Sprite.isTransparent s vx vy = Undef IntOverflow.
Proof.
  intros (Hc & Hr & Hn) Hch Hdata Hlen Hsize.
  unfold Sprite.isTransparent, Sprite.w, Sprite.h.
  rewrite Hch, Hdata. cbn [Z.eqb Pos.eqb].
  run_pos_divs.
  destruct (cast_int_cases
              (fadd vx (fmul (f_of_int (Z.rem (Z.rem (Sprite.frame s) (Sprite.numFrames s))
                                             (Sprite.cols s)))
                             (fdiv (fmul (f_of_int 1)
                                      (f_of_int (Sprite.tex_w (Sprite.texture s))))
                                   (f_of_int (Sprite.cols s))))))
    as [[x ->]| ->]; cbn [mbind outcome_mbind outcome_bind]; [|now right].
  run_pos_divs.
  match goal with |- context [int_range ?z] =>
    destruct (int_range_cases z) as [[-> _]| ->];
    cbn [mbind outcome_mbind outcome_bind]; [|now right] end.
  match goal with |- context [int_range ?z] =>
    destruct (int_range_cases z) as [[-> _]| ->];
    cbn [mbind outcome_mbind outcome_bind]; [|now right] end.
  match goal with |- context [cast_int ?z] =>
    destruct (cast_int_cases z) as [[y ->]| ->];
    cbn [mbind outcome_mbind outcome_bind]; [|now right] end.
  set (tw := Sprite.tex_w (Sprite.texture s)) in *.
  set (th := Sprite.tex_h (Sprite.texture s)) in *.
  destruct (Z.ltb_spec x 0); [left; eauto|].
  destruct (Z.leb_spec tw x); [left; eauto|].
  destruct (Z.ltb_spec y 0); [left; eauto|].
  destruct (Z.leb_spec th y); [left; eauto|].
  cbn [orb].
  assert (Hyw : (0 <= y * tw <= (th - 1) * tw)%Z) by nia.
  assert (Hmin : int_min = (- 2 ^ 31)%Z) by reflexivity.
  rewrite (int_range_in (y * tw)) by nia.
  cbn [mbind outcome_mbind outcome_bind].
  rewrite (int_range_in (x + y * tw)) by nia.
  cbn [mbind outcome_mbind outcome_bind].
  rewrite (int_range_in ((x + y * tw) * 4)) by nia.
  cbn [mbind outcome_mbind outcome_bind].
  rewrite (int_range_in ((x + y * tw) * 4 + 3)) by nia.
  cbn [mbind outcome_mbind outcome_bind].
  destruct (Z.leb_spec 0 ((x + y * tw) * 4 + 3)); [|nia].
  assert (Hidx : (Z.to_nat ((x + y * tw) * 4 + 3) < length data)%nat) by nia.
  destruct (lookup_lt_is_Some_2 _ _ Hidx) as [b ->]. left. eauto.
Qed.

End WithFloat.

#[local] Existing Instance exact_floats.

(** A sheet of two frames of one pixel each, with its alpha bytes [0] and
    [255]. *)
Definition dots : Sprite.Sprite :=
  {| Sprite.texture :=
       {| Sprite.tex_name := 9; Sprite.tex_w := 2; Sprite.tex_h := 1; Sprite.tex_ch := 4;
          Sprite.imageData := Some [10; 20; 30; 0; 40; 50; 60; 255]%Z |};
     Sprite.cols := 2; Sprite.rows := 1; Sprite.numFrames := 2;
     Sprite.frame := 1; Sprite.zOrder := 0 |}.

Lemma isTransparent_reads_inside_witness :
  (exists b, Sprite.isTransparent dots (inject_Z 0) (inject_Z 0) = Ret b) \/
  Sprite.isTransparent dots (inject_Z 0) (inject_Z 0) = Undef IntOverflow.
Proof.
  apply (isTransparent_reads_inside dots [10; 20; 30; 0; 40; 50; 60; 255]%Z).
  - unfold Sprite.inv. cbn. lia.
  - reflexivity.
  - reflexivity.
  - reflexivity.
  - reflexivity.
Defined.

End SpriteFacts.

(** ** Facts about the names the registered constructors give *)

Module FactoryFacts.
Import Factory.

Section WithCollaborators.
Context `{Collaborators}.

(** A node a registered constructor returns has the class it was registered
    for; the name of a sprite node holds no [/]; and the constructor, given
    the name of the node again, as [loadPrj] and the duplicate action give
    it, returns a node of the same name. *)
Theorem construct_name_stable (k : Kind) (nm : string) (o : Obj) :
  construct k nm = Ret o ->
  kind o = k /\
  name o = ctorName k nm /\
  (isSprite k = true -> PrjFacts.no_slash (name o) = true) /\
  (forall o', construct k (name o) = Ret o' -> name o' = name o).
Proof.
  intros Hrun.
  assert (Hnew : forall n o1, construct k n = Ret o1 -> o1 = newObj k n).
  { intros n o1. unfold construct, newRoot.
    destruct k; try (destruct (failure _ n); congruence).
    intros [= <-]. unfold newObj. reflexivity. }
  pose proof (Hnew nm o Hrun) as ->. cbn [kind name newObj].
  split; [done|]. split; [done|]. split.
  - destruct k; try discriminate; intros _; cbn [ctorName]; unfold filename;
      now apply PrjFacts.filename_from_no_slash.
  - intros o' Hrun'. pose proof (Hnew _ o' Hrun') as ->. cbn [name newObj].
    apply PrjFacts.ctorName_stable.
Qed.

End WithCollaborators.

Lemma construct_name_stable_witness :
  exists o, @construct PrjFacts.studio Eye "pics/eyes/left.png" = Ret o /\
            name o = "left.png"%string /\
            forall o', @construct PrjFacts.studio Eye "left.png" = Ret o' ->
                       name o' = "left.png"%string.
Proof.
  eexists. split; [reflexivity|].
  destruct (@construct_name_stable PrjFacts.studio Eye "pics/eyes/left.png" _ eq_refl)
    as (_ & Hname & _ & Hagain).
  split; [reflexivity|]. exact Hagain.
Defined.

End FactoryFacts.

(** ** Facts about the duplicate action *)

Module DuplicateFacts.
Import Factory UndoManager App Duplicate.

(** The closures of the duplicate action, with [Node::addChild] and
    [Node::del] as above: the do-closure attaches the copy and selects it;
    the undo-closure removes the copy and restores the selection of the
    record, whatever is selected when it runs, if the address of the copy is
    the address of no node of the scene. *)
Theorem dup_undo_removes_copy (n : Tree) (p : N) (w : World) (t : Tree)
    (sel : option N) :
  root w = Some t ->
  ~ In (addr_of n) (AppFacts.addrs t) ->
  exists w1,
    dup_do n (Some p) w = Ret w1 /\
    root w1 = Some (addChild p n t) /\
    selected w1 = Some (addr_of n) /\
    dup_undo n (selected w) {| root := root w1; selected := sel |} = Ret w.
Proof.
  intros Hroot Hfresh. destruct w as [r old]. cbn in Hroot. subst r.
  eexists. split; [reflexivity|]. cbn.
  split; [done|]. split; [done|].
  unfold dup_undo. cbn. now rewrite AppFacts.del_addChild.
Qed.

Definition a_copy : Tree := TNode 3 (Prj.obj_of PrjFacts.chat) [].

Lemma dup_undo_removes_copy_witness :
  exists w1,
    dup_do a_copy (Some 1) (AppFacts.scene [AppFacts.a_node] (Some 2)) = Ret w1 /\
    dup_undo a_copy (Some 2) {| root := root w1; selected := Some 1 |}
      = Ret (AppFacts.scene [AppFacts.a_node] (Some 2)).
Proof.
  destruct (dup_undo_removes_copy a_copy 1 (AppFacts.scene [AppFacts.a_node] (Some 2))
              (TNode 1 (@newRoot PrjFacts.studio) [AppFacts.a_node]) (Some 1))
    as (w1 & Hdo & _ & _ & Hundo).
  - reflexivity.
  - cbn. lia.
  - exists w1. split; [exact Hdo|exact Hundo].
Defined.

End DuplicateFacts.
